(** * The scheduling orchestrator of the endpoint picker

    A shallow embedding of [pkg/epp/scheduling/scheduler.go]: the
    [Scheduler] type and its [Schedule] method, together with the
    declarations of the [types] and [framework] packages that [Schedule]
    uses.
    The validation template of the chart
    ([config/charts/inferencepool/templates/_validations.tpl]) is embedded
    in the module [validations], after the orchestrator.

    Conventions of the embedding.
    - A Go pointer that may be nil is an [option]; a Go [error] is an
      [option error] whose payload is the message of the error.
    - A Go [map] is a [gmap]; [len m] is [size m].  A map entry whose value
      is a nil pointer is an entry [Some None], which still counts in
      [size].
    - The cycle state is a heap object: [World] maps the address of every
      live cycle state to its content, and a plugin receives the address
      together with the world, and returns the world it leaves behind.
    - [Schedule] is a computation in the monad [M]: it threads the world,
      the number of clock readings and the number of [range] statements
      executed so far, and it produces the list of [Event]s (calls that
      leave the function) in program order.
    - A plugin ([Pick], [Run], [ProcessResults]) is a function of its
      arguments and of the world.  The maps and the slice it is handed are
      values that it reads; what it writes, it writes to the world.
    - The order in which [range] yields the entries of a map and the
      readings of the clock are parameters of [Schedule].
    - The [for] loop of [Schedule] has no bound; the embedding runs it with
      a fuel, and answers [None] when the fuel is used up before the
      handler's [Pick] has returned an empty selection. *)

From Stdlib Require Import ZArith String.
From stdpp Require Import base option list gmap sets strings.

Open Scope string_scope.
Open Scope list_scope.

(** ** Package [types] *)

Module types.

(** Modelled from the spec: [types.Pod], declared outside
    [scheduler.go].  A pod is an identity (name, namespace) with an
    opaque metrics snapshot attached; the scheduler only reads it. *)
Record Pod : Type := mkPod
  { GetName : string;
    GetNamespace : string;
    GetMetrics : Z }.

(** Modelled from the spec: [types.LLMRequest], of which [Schedule] reads
    the field [RequestId] only. *)
Record LLMRequest : Type := mkLLMRequest
  { RequestId : string;
    TargetModel : string }.

(** Modelled from the spec: [types.ProfileRunResult], the outcome of one
    run of one profile: the selected pod (possibly none) and the scores
    of the pods.  The orchestrator never looks inside. *)
Record ProfileRunResult : Type := mkProfileRunResult
  { SelectedPod : option Pod;
    Scores : list (string * Z) }.

(** The map [map[string]*types.ProfileRunResult]. *)
Abbreviation ProfileRunResults := (gmap string (option ProfileRunResult)).

(** Modelled from the spec: [types.SchedulingResult]; [Schedule] reads
    its field [TargetPod], a nilable pod. *)
Record SchedulingResult : Type := mkSchedulingResult
  { TargetPod : option Pod;
    ProfileResults : ProfileRunResults }.

(** Modelled from the spec: the content of a [types.CycleState], a map
    from a plugin-defined key to an opaque value. *)
Abbreviation CycleState := (gmap string Z).

End types.
Export types.

(** The message of a Go [error]. *)
Definition error : Type := string.

(** Addresses of cycle states, and the heap that holds them. *)
Definition loc : Type := nat.
Abbreviation World := (gmap loc CycleState).

(** Modelled from the spec: [types.NewCycleState], which allocates an
    empty cycle state at an address that is not in use. *)
Definition NewCycleState_at (w : World) : loc := fresh (dom w).

(** ** Package [framework] *)

Module framework.

(** [plugins.TypedName]: the type and the name of a plugin. *)
Record TypedName : Type := mkTypedName
  { Type_ : string;
    Name : string }.

(** The two extension points whose latency [Schedule] records. *)
Inductive ExtensionPoint : Type :=
  | ProfilePickerExtensionPoint
  | ProcessProfilesResultsExtensionPoint.

(** [framework.SchedulerProfile], seen through the one method that
    [Schedule] calls: [Run(ctx, request, cycleState, candidatePods)].
    The body of [Run] lies outside [scheduler.go], so a profile is any
    function of the Go signature: it may read and write the world and
    returns a nilable result and a nilable error, in any combination. *)
Record SchedulerProfile : Type := mkSchedulerProfile
  { Run : World → LLMRequest → loc → list Pod →
          World * (option ProfileRunResult * option error) }.


(** The map [map[string]*framework.SchedulerProfile]. *)
Abbreviation Profiles := (gmap string SchedulerProfile).

(** The interface [framework.ProfileHandler].  The maps handed to [Pick]
    and [ProcessResults] are inputs that the handler reads. *)
Record ProfileHandler : Type := mkProfileHandler
  { TypedName_of : TypedName;
    Pick : World → loc → LLMRequest → Profiles → ProfileRunResults →
           World * Profiles;
    ProcessResults : World → loc → LLMRequest → ProfileRunResults →
                     World * (option SchedulingResult * option error) }.

End framework.
Export framework.

(** ** Package [scheduling] *)

(** [type Scheduler struct]. *)
Record Scheduler : Type := mkScheduler
  { profileHandler : ProfileHandler;
    profiles : Profiles }.

(** [NewSchedulerWithConfig]: the configuration carries the same two
    fields. *)
Record SchedulerConfig : Type := mkSchedulerConfig
  { config_profileHandler : ProfileHandler;
    config_profiles : Profiles }.

Definition NewSchedulerWithConfig (config : SchedulerConfig) : Scheduler :=
  {| profileHandler := config_profileHandler config;
     profiles := config_profiles config |}.

(** *** What leaves [Schedule] *)

(** A call of [types.NewCycleState] or of a plugin, with the arguments it
    was given and what it returned. *)
Inductive Call : Type :=
  | CallNewCycleState (cycleState : loc)
  | CallPick (cycleState : loc) (request : LLMRequest)
      (available : Profiles) (resultsSoFar : ProfileRunResults)
      (picked : Profiles)
  | CallRun (name : string) (request : LLMRequest) (cycleState : loc)
      (candidatePods : list Pod)
      (result : option ProfileRunResult) (err : option error)
  | CallProcessResults (cycleState : loc) (request : LLMRequest)
      (results : ProfileRunResults)
      (result : option SchedulingResult) (err : option error).

(** Values of span attributes and of log fields. *)
Inductive AttrValue : Type :=
  | AttrInt (n : Z)
  | AttrString (s : string).

Inductive LogValue : Type :=
  | LogTypedName (t : TypedName)
  | LogString (s : string)
  | LogProfiles (ps : Profiles).

(** The events of one [Schedule] call.  [Invoke c before after] is the
    call [c], entered in world [before] and left in world
    [after]. *)
Inductive Event : Type :=
  | SpanStart (name : string)
  | SpanSetAttributes (kv : list (string * AttrValue))
  | SpanEnd
  | LogInfo (msg : string) (kv : list (string * LogValue))
  | RecordSchedulerE2ELatency (d : Z)
  | RecordPluginProcessingLatency (ep : ExtensionPoint)
      (pluginType pluginName : string) (d : Z)
  | Invoke (c : Call) (before after : World).

(** *** The monad of [Schedule] *)

Record State : Type := mkState
  { world : World;     (* the heap of cycle states *)
    ticks : nat;       (* clock readings made so far *)
    ranges : nat }.    (* [range] statements executed so far *)

Definition M (A : Type) : Type := State → A * State * list Event.

#[global] Instance M_ret : MRet M := λ A (a : A) st, (a, st, []).

#[global] Instance M_bind : MBind M := λ A B (f : A → M B) (m : M A) st,
  let '(a, st1, t1) := m st in
  let '(b, st2, t2) := f a st1 in
  (b, st2, t1 ++ t2).

Definition emit (e : Event) : M unit := λ st, (tt, st, [e]).

(** *** [Schedule] *)

Section Orchestrator.

(** The wall clock: [clock n] is what the [n]-th reading of the clock
    gives. *)
Variable clock : nat → Z.

(** Go yields the entries of a map in an order of its own choosing, which
    may change from one [range] statement to the next: [rangeOrder n m] is
    the order in which the [n]-th [range] statement of the call yields the
    entries of [m]. *)
Variable rangeOrder : nat → Profiles → list (string * SchedulerProfile).

(** [time.Now()] and [time.Since(t)]. *)
Definition timeNow : M Z := λ st,
  (clock (ticks st), mkState (world st) (S (ticks st)) (ranges st), []).

Definition timeSince (t : Z) : M Z :=
  now ← timeNow; mret (now - t)%Z.

(** The entries that [for name, profile := range m] goes through. *)
Definition range (m : Profiles) : M (list (string * SchedulerProfile)) := λ st,
  (rangeOrder (ranges st) m, mkState (world st) (ticks st) (S (ranges st)), []).

(** [types.NewCycleState()]. *)
Definition NewCycleState : M loc := λ st,
  let l := NewCycleState_at (world st) in
  (l, mkState (<[l := ∅]> (world st)) (ticks st) (ranges st),
   [Invoke (CallNewCycleState l) (world st) (<[l := ∅]> (world st))]).

(** The three plugin calls. *)
Definition invokePick (h : ProfileHandler) (cycleState : loc)
    (request : LLMRequest) (available : Profiles)
    (resultsSoFar : ProfileRunResults) : M Profiles := λ st,
  let r := Pick h (world st) cycleState request available resultsSoFar in
  (r.2, mkState r.1 (ticks st) (ranges st),
   [Invoke (CallPick cycleState request available resultsSoFar r.2)
      (world st) r.1]).

Definition invokeRun (name : string) (profile : SchedulerProfile)
    (request : LLMRequest) (cycleState : loc) (candidatePods : list Pod)
    : M (option ProfileRunResult * option error) := λ st,
  let r := Run profile (world st) request cycleState candidatePods in
  (r.2, mkState r.1 (ticks st) (ranges st),
   [Invoke (CallRun name request cycleState candidatePods r.2.1 r.2.2)
      (world st) r.1]).

Definition invokeProcessResults (h : ProfileHandler) (cycleState : loc)
    (request : LLMRequest) (results : ProfileRunResults)
    : M (option SchedulingResult * option error) := λ st,
  let r := ProcessResults h (world st) cycleState request results in
  (r.2, mkState r.1 (ticks st) (ranges st),
   [Invoke (CallProcessResults cycleState request results r.2.1 r.2.2)
      (world st) r.1]).

(** The body of the inner loop, lines 84 to 93: run one selected profile
    and store what it returned under its name. *)
Definition runProfile (request : LLMRequest) (cycleState : loc)
    (candidatePods : list Pod) (profileRunResults : ProfileRunResults)
    (name : string) (profile : SchedulerProfile) : M ProfileRunResults :=
  emit (LogInfo "Running scheduler profile" [("profile", LogString name)]);;
  r ← invokeRun name profile request cycleState candidatePods;
  match r.2 with
  | Some err =>
      emit (LogInfo "failed to run scheduler profile"
              [("profile", LogString name); ("error", LogString err)])
  | None =>
      emit (LogInfo "Completed running scheduler profile succuessfully"
              [("profile", LogString name)])
  end;;
  mret (<[name := r.1]> profileRunResults).

(** The inner loop, over the entries in the order [range] yields them. *)
Fixpoint runProfiles (request : LLMRequest) (cycleState : loc)
    (candidatePods : list Pod) (entries : list (string * SchedulerProfile))
    (profileRunResults : ProfileRunResults) : M ProfileRunResults :=
  match entries with
  | [] => mret profileRunResults
  | (name, profile) :: rest =>
      profileRunResults ← runProfile request cycleState candidatePods
                            profileRunResults name profile;
      runProfiles request cycleState candidatePods rest profileRunResults
  end.

(** The outer loop, lines 73 to 95.  [Some results] is the map at the
    [break]; [None] says that the fuel is used up. *)
Fixpoint rounds (fuel : nat) (s : Scheduler) (request : LLMRequest)
    (candidatePods : list Pod) (cycleState : loc)
    (profileRunResults : ProfileRunResults) : M (option ProfileRunResults) :=
  match fuel with
  | O => mret None
  | S fuel =>
      let h := profileHandler s in
      emit (LogInfo "Running profile handler, Pick profiles"
              [("plugin", LogTypedName (TypedName_of h))]);;
      before ← timeNow;
      picked ← invokePick h cycleState request (profiles s) profileRunResults;
      d ← timeSince before;
      emit (RecordPluginProcessingLatency ProfilePickerExtensionPoint
              (Type_ (TypedName_of h)) (Name (TypedName_of h)) d);;
      emit (LogInfo
              "Completed running profile handler Pick profiles successfully"
              [("plugin", LogTypedName (TypedName_of h));
               ("result", LogProfiles picked)]);;
      if decide (size picked = 0) then mret (Some profileRunResults)
      else
        entries ← range picked;
        profileRunResults ← runProfiles request cycleState candidatePods
                              entries profileRunResults;
        rounds fuel s request candidatePods cycleState profileRunResults
  end.

(** The error of line 98. *)
Definition NoProfilesRun (request : LLMRequest) : error :=
  "failed to run any scheduler profile for request " +:+ RequestId request.

(** The two deferred calls, in the order in which they run at a return:
    the latency of the whole call, then the end of the span. *)
Definition deferred (scheduleStart : Z) : M unit :=
  d ← timeSince scheduleStart;
  emit (RecordSchedulerE2ELatency d);;
  emit SpanEnd.

(** The span attributes of lines 108 to 118. *)
Definition resultAttributes (result : option SchedulingResult)
    (err : option error) : M unit :=
  match result ≫= TargetPod, err with
  | Some pod, _ =>
      emit (SpanSetAttributes
              [("gateway.scheduler.result", AttrString "scheduled");
               ("gateway.target_pod.name", AttrString (GetName pod));
               ("gateway.target_pod.namespace",
                AttrString (GetNamespace pod))])
  | None, Some _ =>
      emit (SpanSetAttributes
              [("gateway.scheduler.result", AttrString "failed")])
  | None, None => mret tt
  end.

(** [func (s *Scheduler) Schedule(ctx, request, candidatePods)].  The
    answer is [None] when the loop has not ended within the fuel, and
    otherwise the pair that [Schedule] returns. *)
Definition Schedule (fuel : nat) (s : Scheduler) (request : LLMRequest)
    (candidatePods : list Pod)
    : M (option (option SchedulingResult * option error)) :=
  let h := profileHandler s in
  emit (SpanStart "gateway.scheduler.schedule");;
  scheduleStart ← timeNow;
  emit (SpanSetAttributes
          [("gateway.scheduler.candidate_pods",
            AttrInt (Z.of_nat (length candidatePods)));
           ("gateway.request.id", AttrString (RequestId request))]);;
  cycleState ← NewCycleState;
  ended ← rounds fuel s request candidatePods cycleState ∅;
  match ended with
  | None => mret None
  | Some profileRunResults =>
      if decide (size profileRunResults = 0) then
        deferred scheduleStart;;
        mret (Some (None, Some (NoProfilesRun request)))
      else
        emit (LogInfo "Running profile handler, ProcessResults"
                [("plugin", LogTypedName (TypedName_of h))]);;
        before ← timeNow;
        r ← invokeProcessResults h cycleState request profileRunResults;
        d ← timeSince before;
        emit (RecordPluginProcessingLatency
                ProcessProfilesResultsExtensionPoint
                (Type_ (TypedName_of h)) (Name (TypedName_of h)) d);;
        emit (LogInfo
                "Completed running profile handler ProcessResults successfully"
                [("plugin", LogTypedName (TypedName_of h))]);;
        resultAttributes r.1 r.2;;
        deferred scheduleStart;;
        mret (Some r)
  end.

(** The loop as [Schedule] enters it in the world [w]: with the cycle
    state just allocated, the empty results map, one reading of the clock
    and no [range] statement behind it. *)
Definition Schedule_loop (fuel : nat) (s : Scheduler) (request : LLMRequest)
    (candidatePods : list Pod) (w : World)
    : option ProfileRunResults * State * list Event :=
  rounds fuel s request candidatePods (NewCycleState_at w) ∅
    (mkState (<[NewCycleState_at w := ∅]> w) 1 0).

(** One call of [Schedule], made in world [w]: what it returns, the world
    it leaves, and its events. *)
Definition run_Schedule (fuel : nat) (s : Scheduler) (request : LLMRequest)
    (candidatePods : list Pod) (w : World)
    : option (option SchedulingResult * option error) * World * list Event :=
  let r := Schedule fuel s request candidatePods (mkState w 0 0) in
  (r.1.1, world r.1.2, r.2).

End Orchestrator.

(** ** Reading a trace *)

(** The calls of a trace, with the worlds around each. *)
Abbreviation Invocation := (Call * World * World)%type.

Definition invocation (e : Event) : option Invocation :=
  match e with
  | Invoke c before after => Some (c, before, after)
  | _ => None
  end.

Definition invocations (tr : list Event) : list Invocation :=
  omap invocation tr.

Definition call_of (i : Invocation) : Call := i.1.1.

Definition calls (tr : list Event) : list Call :=
  call_of <$> invocations tr.

Definition is_NewCycleState (c : Call) : bool :=
  match c with CallNewCycleState _ => true | _ => false end.


Definition is_Run (c : Call) : bool :=
  match c with CallRun _ _ _ _ _ _ => true | _ => false end.

Definition is_ProcessResults (c : Call) : bool :=
  match c with CallProcessResults _ _ _ _ _ => true | _ => false end.


(** The results map a call of the handler is given. *)
Definition reads (c : Call) : option ProfileRunResults :=
  match c with
  | CallPick _ _ _ rs _ => Some rs
  | CallProcessResults _ _ rs _ _ => Some rs
  | _ => None
  end.

(** The selection a [Pick] returned. *)
Definition picked_of (c : Call) : option Profiles :=
  match c with
  | CallPick _ _ _ _ picked => Some picked
  | _ => None
  end.

(** The name under which a [Run] was made. *)
Definition run_name (c : Call) : option string :=
  match c with
  | CallRun name _ _ _ _ _ => Some name
  | _ => None
  end.

(** The results map after a call, given the map before it: a [Run] stores
    the result it returned under its name, the other calls store
    nothing. *)
Definition record (rs : ProfileRunResults) (c : Call) : ProfileRunResults :=
  match c with
  | CallRun name _ _ _ result _ => <[name := result]> rs
  | _ => rs
  end.

(** The results map that a list of calls has accumulated, starting from
    the empty map of line 70. *)
Definition recorded (cs : list Call) : ProfileRunResults :=
  foldl record ∅ cs.

(** *** Properties of a list of invocations *)

(** A list is accepted from the state [σ] when every element is [ok] in
    the state that [δ] has reached before it. *)
Section Monitor.

Context {Σ X : Type} (δ : Σ → X → Σ) (ok : Σ → X → Prop).

Fixpoint accepts (σ : Σ) (l : list X) : Prop :=
  match l with
  | [] => True
  | x :: l => ok σ x ∧ accepts (δ σ x) l
  end.

End Monitor.



(** Every call of the handler is given the results map that the runs
    before it have accumulated from [rs]. *)
Definition reads_recorded : ProfileRunResults → list Call → Prop :=
  accepts record (λ rs c, ∀ rs', reads c = Some rs' → rs' = rs).

(** An invocation is what the called function does: the arguments, the
    values returned and the two worlds are related by the function. *)
Definition genuine (h : ProfileHandler) (i : Invocation) : Prop :=
  match i with
  | (CallNewCycleState cs, before, after) =>
      cs = NewCycleState_at before ∧ after = <[cs := ∅]> before
  | (CallPick cs rq available rs picked, before, after) =>
      Pick h before cs rq available rs = (after, picked)
  | (CallRun name rq cs pods result err, before, after) =>
      ∃ profile, Run profile before rq cs pods = (after, (result, err))
  | (CallProcessResults cs rq rs result err, before, after) =>
      ProcessResults h before cs rq rs = (after, (result, err))
  end.

(** A call is about the cycle state, the request, the profiles and the
    pods of this [Schedule] call. *)
Definition addressed (s : Scheduler) (request : LLMRequest)
    (candidatePods : list Pod) (cycleState : loc) (c : Call) : Prop :=
  match c with
  | CallNewCycleState cs => cs = cycleState
  | CallPick cs rq available _ _ =>
      cs = cycleState ∧ rq = request ∧ available = profiles s
  | CallRun _ rq cs pods _ _ =>
      cs = cycleState ∧ rq = request ∧ pods = candidatePods
  | CallProcessResults cs rq _ _ _ => cs = cycleState ∧ rq = request
  end.

(** *** The loop as a relation on invocations *)

Section Loop.

Variable rangeOrder : nat → Profiles → list (string * SchedulerProfile).
Variables (s : Scheduler) (request : LLMRequest) (candidatePods : list Pod).
Variable cycleState : loc.

(** [Wave entries rs w invs rs' w']: running the [entries] one after the
    other from the results [rs] in the world [w] makes the invocations
    [invs] and ends with the results [rs'] in the world [w']. *)
Inductive Wave : list (string * SchedulerProfile) →
    ProfileRunResults → World → list Invocation →
    ProfileRunResults → World → Prop :=
  | Wave_done rs w : Wave [] rs w [] rs w
  | Wave_run name profile entries rs w w1 result err invs rs' w' :
      Run profile w request cycleState candidatePods = (w1, (result, err)) →
      Wave entries (<[name := result]> rs) w1 invs rs' w' →
      Wave ((name, profile) :: entries) rs w
        ((CallRun name request cycleState candidatePods result err, w, w1)
           :: invs)
        rs' w'.

(** [Loop fuel n rs w invs ended w']: the loop entered with [fuel]
    rounds left, [n] [range] statements behind it, the results [rs] and
    the world [w] makes the invocations [invs]; it ends at the [break]
    with the results [ended = Some rs'], or stops for want of fuel with
    [ended = None]; [w'] is the world then. *)
Inductive Loop : nat → nat → ProfileRunResults → World →
    list Invocation → option ProfileRunResults → World → Prop :=
  | Loop_out_of_fuel n rs w : Loop 0 n rs w [] None w
  | Loop_break fuel n rs w w1 picked :
      Pick (profileHandler s) w cycleState request (profiles s) rs
        = (w1, picked) →
      size picked = 0 →
      Loop (S fuel) n rs w
        [(CallPick cycleState request (profiles s) rs picked, w, w1)]
        (Some rs) w1
  | Loop_round fuel n rs w w1 picked wave rs1 w2 invs ended w' :
      Pick (profileHandler s) w cycleState request (profiles s) rs
        = (w1, picked) →
      size picked ≠ 0 →
      Wave (rangeOrder n picked) rs w1 wave rs1 w2 →
      Loop fuel (S n) rs1 w2 invs ended w' →
      Loop (S fuel) n rs w
        ((CallPick cycleState request (profiles s) rs picked, w, w1)
           :: wave ++ invs)
        ended w'.

End Loop.

(** [Scheduled … w invs ret w']: a call of [Schedule] made in the world
    [w] makes the invocations [invs], returns [ret] ([None] when the loop
    ran out of fuel) and leaves the world [w']. *)
Inductive Scheduled
    (rangeOrder : nat → Profiles → list (string * SchedulerProfile))
    (fuel : nat) (s : Scheduler) (request : LLMRequest)
    (candidatePods : list Pod) (w : World) :
    list Invocation → option (option SchedulingResult * option error) →
    World → Prop :=
  | Scheduled_out_of_fuel invs w' :
      Loop rangeOrder s request candidatePods (NewCycleState_at w)
        fuel 0 ∅ (<[NewCycleState_at w := ∅]> w) invs None w' →
      Scheduled rangeOrder fuel s request candidatePods w
        ((CallNewCycleState (NewCycleState_at w),
          w, <[NewCycleState_at w := ∅]> w) :: invs)
        None w'
  | Scheduled_nothing_ran invs rs w' :
      Loop rangeOrder s request candidatePods (NewCycleState_at w)
        fuel 0 ∅ (<[NewCycleState_at w := ∅]> w) invs (Some rs) w' →
      size rs = 0 →
      Scheduled rangeOrder fuel s request candidatePods w
        ((CallNewCycleState (NewCycleState_at w),
          w, <[NewCycleState_at w := ∅]> w) :: invs)
        (Some (None, Some (NoProfilesRun request))) w'
  | Scheduled_processed invs rs w1 w' result err :
      Loop rangeOrder s request candidatePods (NewCycleState_at w)
        fuel 0 ∅ (<[NewCycleState_at w := ∅]> w) invs (Some rs) w1 →
      size rs ≠ 0 →
      ProcessResults (profileHandler s) w1 (NewCycleState_at w) request rs
        = (w', (result, err)) →
      Scheduled rangeOrder fuel s request candidatePods w
        ((CallNewCycleState (NewCycleState_at w),
          w, <[NewCycleState_at w := ∅]> w)
           :: invs ++
              [(CallProcessResults (NewCycleState_at w) request rs
                  result err, w1, w')])
        (Some (result, err)) w'.

(** *** Order of a wave *)

(** Two profiles commute on a request when running them in either order
    from the same world leaves the same world and gives each the same
    result. *)
Definition commute (request : LLMRequest) (cs : loc) (pods : list Pod)
    (p q : SchedulerProfile) : Prop :=
  ∀ w,
    let a := Run p w request cs pods in
    let b := Run q a.1 request cs pods in
    let b' := Run q w request cs pods in
    let a' := Run p b'.1 request cs pods in
    b.1 = a'.1 ∧ a.2.1 = a'.2.1 ∧ b.2.1 = b'.2.1.

(** Any two profiles that the handler of [s] picks together commute. *)
Definition waves_commute (s : Scheduler) (request : LLMRequest)
    (pods : list Pod) : Prop :=
  ∀ w cs rs n1 p1 n2 p2,
    let picked := (Pick (profileHandler s) w cs request (profiles s) rs).2 in
    picked !! n1 = Some p1 → picked !! n2 = Some p2 → n1 ≠ n2 →
    commute request cs pods p1 p2.

(** One step of the inner loop on the pair of the results map and the
    world. *)
Definition run_entry (request : LLMRequest) (cs : loc) (pods : list Pod)
    (σ : ProfileRunResults * World) (e : string * SchedulerProfile)
    : ProfileRunResults * World :=
  let r := Run e.2 σ.2 request cs pods in (<[e.1 := r.2.1]> σ.1, r.1).

(** ** The trace of a call, piece by piece

    The events that [Schedule] emits around each of the calls it makes, in
    the order of the statements that emit them. *)

(** The events of one run of a profile: the body of the inner loop. *)
Definition run_events (name : string) (request : LLMRequest) (cs : loc)
    (pods : list Pod) (before : World)
    (r : World * (option ProfileRunResult * option error)) : list Event :=
  [LogInfo "Running scheduler profile" [("profile", LogString name)];
   Invoke (CallRun name request cs pods r.2.1 r.2.2) before r.1;
   match r.2.2 with
   | Some err =>
       LogInfo "failed to run scheduler profile"
         [("profile", LogString name); ("error", LogString err)]
   | None =>
       LogInfo "Completed running scheduler profile succuessfully"
         [("profile", LogString name)]
   end].

(** The events of [Schedule] before the loop. *)
Definition opening_events (request : LLMRequest) (pods : list Pod)
    (w : World) : list Event :=
  [SpanStart "gateway.scheduler.schedule";
   SpanSetAttributes
     [("gateway.scheduler.candidate_pods", AttrInt (Z.of_nat (length pods)));
      ("gateway.request.id", AttrString (RequestId request))];
   Invoke (CallNewCycleState (NewCycleState_at w)) w
     (<[NewCycleState_at w := ∅]> w)].

Section Pieces.
Variable clock : nat → Z.

(** The events around one [Pick]. *)
Definition pick_events (s : Scheduler) (request : LLMRequest) (cs : loc)
    (rs : ProfileRunResults) (st : State) (pk : World * Profiles)
    : list Event :=
  let h := profileHandler s in
  [LogInfo "Running profile handler, Pick profiles"
     [("plugin", LogTypedName (TypedName_of h))];
   Invoke (CallPick cs request (profiles s) rs pk.2) (world st) pk.1;
   RecordPluginProcessingLatency ProfilePickerExtensionPoint
     (Type_ (TypedName_of h)) (Name (TypedName_of h))
     (clock (S (ticks st)) - clock (ticks st))%Z;
   LogInfo "Completed running profile handler Pick profiles successfully"
     [("plugin", LogTypedName (TypedName_of h));
      ("result", LogProfiles pk.2)]].

(** The events around the call of [ProcessResults]. *)
Definition process_events (s : Scheduler) (request : LLMRequest) (cs : loc)
    (rs : ProfileRunResults) (st : State)
    (p : World * (option SchedulingResult * option error)) : list Event :=
  let h := profileHandler s in
  [LogInfo "Running profile handler, ProcessResults"
     [("plugin", LogTypedName (TypedName_of h))];
   Invoke (CallProcessResults cs request rs p.2.1 p.2.2) (world st) p.1;
   RecordPluginProcessingLatency ProcessProfilesResultsExtensionPoint
     (Type_ (TypedName_of h)) (Name (TypedName_of h))
     (clock (S (ticks st)) - clock (ticks st))%Z;
   LogInfo "Completed running profile handler ProcessResults successfully"
     [("plugin", LogTypedName (TypedName_of h))]].

(** The events of [Schedule] after the loop has ended with [ended], in the
    state [st]: on the early return, the two deferred calls alone. *)
Definition closing_events (s : Scheduler) (request : LLMRequest) (cs : loc)
    (ended : option ProfileRunResults) (st : State) : list Event :=
  match ended with
  | None => []
  | Some rs =>
      if decide (size rs = 0) then
        [RecordSchedulerE2ELatency (clock (ticks st) - clock 0)%Z; SpanEnd]
      else
        let p := ProcessResults (profileHandler s) (world st) cs request rs in
        process_events s request cs rs st p
        ++ (resultAttributes p.2.1 p.2.2 st).2
        ++ [RecordSchedulerE2ELatency
              (clock (S (S (ticks st))) - clock 0)%Z; SpanEnd]
  end.
End Pieces.

(** *** Projections of the trace *)

(** The labels of a latency record of a plugin. *)
Definition plugin_metric (e : Event)
    : option (ExtensionPoint * string * string) :=
  match e with
  | RecordPluginProcessingLatency ep t n _ => Some (ep, t, n)
  | _ => None
  end.

(** The extension point at which a call of the handler is made. *)
Definition handler_call (e : Event) : option ExtensionPoint :=
  match e with
  | Invoke (CallPick _ _ _ _ _) _ _ => Some ProfilePickerExtensionPoint
  | Invoke (CallProcessResults _ _ _ _ _) _ _ =>
      Some ProcessProfilesResultsExtensionPoint
  | _ => None
  end.

Definition plugin_latency (e : Event) : option Z :=
  match e with
  | RecordPluginProcessingLatency _ _ _ d => Some d
  | _ => None
  end.

Definition e2e_latency (e : Event) : option Z :=
  match e with
  | RecordSchedulerE2ELatency d => Some d
  | _ => None
  end.

Definition Zsum (l : list Z) : Z := foldr Z.add 0%Z l.

(** What the log says of a run once it has returned: the name of the
    profile, and the message of the error on the line of a failure. *)
Definition run_log (e : Event) : option (string * option error) :=
  match e with
  | LogInfo msg kv =>
      if decide (msg = "failed to run scheduler profile") then
        match kv with
        | [(_, LogString name); (_, LogString err)] => Some (name, Some err)
        | _ => None
        end
      else if decide
                (msg = "Completed running scheduler profile succuessfully")
      then
        match kv with
        | [(_, LogString name)] => Some (name, None)
        | _ => None
        end
      else None
  | _ => None
  end.

(** The name and the error of a run. *)
Definition run_outcome (e : Event) : option (string * option error) :=
  match e with
  | Invoke (CallRun name _ _ _ _ err) _ _ => Some (name, err)
  | _ => None
  end.

(** The value an event sets for the span attribute [key]. *)
Definition attribute (key : string) (e : Event) : option AttrValue :=
  match e with
  | SpanSetAttributes kv => (list_to_map kv : gmap string AttrValue) !! key
  | _ => None
  end.

Definition is_span_or_e2e (e : Event) : bool :=
  match e with
  | SpanStart _ | SpanEnd | RecordSchedulerE2ELatency _ => true
  | _ => false
  end.

(** ** Example configurations *)

Module Examples.

Definition podA : Pod := mkPod "A" "default" 7.
Definition podB : Pod := mkPod "B" "default" 3.

Definition r1 : LLMRequest := mkLLMRequest "r1" "model".

(** A clock that advances by one at every reading. *)
Definition ticking : nat → Z := Z.of_nat.

(** Two orders in which [range] may yield a map. *)
Definition in_map_order : nat → Profiles → list (string * SchedulerProfile) :=
  λ _ m, map_to_list m.

Definition in_reverse_order
    : nat → Profiles → list (string * SchedulerProfile) :=
  λ _ m, reverse (map_to_list m).

Definition selecting (pod : option Pod) : ProfileRunResult :=
  mkProfileRunResult pod [].

(** A profile that fails: a nil result and an error. *)
Definition failing : SchedulerProfile :=
  mkSchedulerProfile (λ w _ _ _, (w, (None, Some "no pods available"))).

(** A profile that returns a result and an error at once. *)
Definition half_failing : SchedulerProfile :=
  mkSchedulerProfile (λ w _ _ pods,
    (w, (Some (selecting (head pods)), Some "scorer failed"))).

(** A profile that selects the first candidate. *)
Definition first_pod : SchedulerProfile :=
  mkSchedulerProfile (λ w _ _ pods, (w, (Some (selecting (head pods)), None))).

(** A profile that leaves a mark in the cycle state. *)
Definition marking : SchedulerProfile :=
  mkSchedulerProfile (λ w _ cs _,
    (<[cs := <["mark" := 1%Z]> (default ∅ (w !! cs))]> w,
     (Some (selecting None), None))).

(** A profile that selects by the mark it finds in the cycle state. *)
Definition marked : SchedulerProfile :=
  mkSchedulerProfile (λ w _ cs _,
    (w, (Some (selecting (match w !! cs ≫= (.!! "mark") with
                          | Some _ => Some podA
                          | None => Some podB
                          end)), None))).

Definition selected_by (rs : ProfileRunResults) (name : string)
    : option Pod :=
  match rs !! name with
  | Some (Some result) => SelectedPod result
  | _ => None
  end.

Definition aggregate (primary : string) (rs : ProfileRunResults)
    : SchedulingResult :=
  mkSchedulingResult (selected_by rs primary) rs.

(** A handler that picks every profile in the first round and none
    afterwards, and answers with the selection of [primary]. *)
Definition all_at_once (primary : string) : ProfileHandler :=
  mkProfileHandler (mkTypedName "all-at-once" primary)
    (λ w _ _ available rs,
       (w, if decide (size rs = 0) then available else ∅))
    (λ w _ _ rs, (w, (Some (aggregate primary rs), None))).

(** A handler that picks "p1" first, and "p2" once "p1" has left a nil
    entry. *)
Definition with_fallback : ProfileHandler :=
  mkProfileHandler (mkTypedName "with-fallback" "p1-then-p2")
    (λ w _ _ available rs,
       (w, match rs !! "p1", rs !! "p2" with
           | None, _ => filter (λ e, e.1 = "p1") available
           | Some None, None => filter (λ e, e.1 = "p2") available
           | _, _ => ∅
           end))
    (λ w _ _ rs,
       (w, match selected_by rs "p1", selected_by rs "p2" with
           | Some pod, _ => (Some (mkSchedulingResult (Some pod) rs), None)
           | None, Some pod => (Some (mkSchedulingResult (Some pod) rs), None)
           | None, None => (None, Some "no eligible pod")
           end)).

(** A handler whose [ProcessResults] returns a result and an error at
    once. *)
Definition loud : ProfileHandler :=
  mkProfileHandler (mkTypedName "loud" "p1")
    (Pick (all_at_once "p1"))
    (λ w _ _ rs, (w, (Some (aggregate "p1" rs), Some "degraded"))).

(** A handler that never picks. *)
Definition idle : ProfileHandler :=
  mkProfileHandler (mkTypedName "idle" "none")
    (λ w _ _ _ _, (w, ∅))
    (λ w _ _ rs, (w, (Some (aggregate "p1" rs), None))).

Definition two (p1 p2 : SchedulerProfile) : Profiles :=
  <["p1" := p1]> (<["p2" := p2]> ∅).

Definition S_fallback : Scheduler :=
  NewSchedulerWithConfig (mkSchedulerConfig with_fallback (two failing first_pod)).

Definition S_half : Scheduler :=
  NewSchedulerWithConfig
    (mkSchedulerConfig (all_at_once "p2") (two half_failing first_pod)).

Definition S_loud : Scheduler :=
  NewSchedulerWithConfig (mkSchedulerConfig loud (two first_pod first_pod)).

Definition S_idle : Scheduler :=
  NewSchedulerWithConfig (mkSchedulerConfig idle (two first_pod first_pod)).

Definition S_marks : Scheduler :=
  NewSchedulerWithConfig
    (mkSchedulerConfig (all_at_once "p2") (two marking marked)).

Definition S_first : Scheduler :=
  NewSchedulerWithConfig
    (mkSchedulerConfig with_fallback (two first_pod first_pod)).

Definition S_apart : Scheduler :=
  NewSchedulerWithConfig
    (mkSchedulerConfig (all_at_once "p2") (two failing first_pod)).

(** Two profiles that both fail, behind the handler that falls back. *)
Definition S_failing : Scheduler :=
  NewSchedulerWithConfig (mkSchedulerConfig with_fallback (two failing failing)).

(** The results map in which "p1" has a nil entry and "p2" has selected
    pod A, and the one in which both have selected pod A. *)
Definition nil_then_A : ProfileRunResults :=
  <["p1" := None]> (<["p2" := Some (selecting (Some podA))]> ∅).

Definition both_A : ProfileRunResults :=
  <["p1" := Some (selecting (Some podA))]>
    (<["p2" := Some (selecting (Some podA))]> ∅).

(** The world in which the cycle state of a call made in the empty world
    is still empty. *)
Definition fresh_world : World := <[0 := ∅]> ∅.

End Examples.

(** * The validation template of the chart

    [config/charts/inferencepool/templates/_validations.tpl] defines one
    template, [gateway-api-inference-extension.validations.inferencepool.common].
    It reads its context [$] along the path
    [$.Values.inferencePool.modelServers], twice. *)

Module validations.

(** A value of the chart, as a template sees it: what YAML can hold. *)
#[warnings="-register-all"]
Inductive Value : Type :=
  | VNil
  | VBool (b : bool)
  | VNumber (n : Z)
  | VString (s : string)
  | VList (l : list Value)
  | VDict (d : gmap string Value).

(** What rendering the template gives: the text it writes, the message of a
    call of [fail], or an error of the template engine. *)
Inductive Rendered : Type :=
  | Output (text : string)
  | Failed (msg : string)
  | ExecError.

(** The field access [.name] of the template engine, as the chart is
    rendered: on a dictionary, the value under the key, and nil when the
    key is absent; on anything else, nil included, the engine stops with
    an error. *)
Definition field (v : Value) (name : string) : option Value :=
  match v with
  | VDict d => Some (default VNil (d !! name))
  | _ => None
  end.

(** The expression [$.Values.inferencePool.modelServers]. *)
Definition modelServers (root : Value) : option Value :=
  values ← field root "Values";
  inferencePool ← field values "inferencePool";
  field inferencePool "modelServers".

(** The template function [empty]: true of nil and of the zero value of
    each type. *)
Definition empty (v : Value) : bool :=
  match v with
  | VNil => true
  | VBool b => negb b
  | VNumber n => bool_decide (n = 0%Z)
  | VString s => bool_decide (s = "")
  | VList l => bool_decide (length l = 0)
  | VDict d => bool_decide (size d = 0)
  end.

(** The template function [hasKey], which takes a dictionary: on any other
    value the engine stops with an error. *)
Definition hasKey (v : Value) (key : string) : option bool :=
  match v with
  | VDict d => Some (bool_decide (is_Some (d !! key)))
  | _ => None
  end.

(** The template.  [or] evaluates its second argument only when the first
    is false; the white space around the actions is trimmed, so a rendering
    that does not fail writes nothing. *)
Definition inferencepool_common (root : Value) : Rendered :=
  match modelServers root with
  | None => ExecError
  | Some first =>
      if empty first then
        Failed ".Values.inferencePool.modelServers.matchLabels is required"
      else
        match modelServers root ≫= λ second, hasKey second "matchLabels" with
        | None => ExecError
        | Some present =>
            if negb present then
              Failed
                ".Values.inferencePool.modelServers.matchLabels is required"
            else Output ""
        end
  end.

End validations.

(** * Properties *)

(** ** Lists, monitors and the monad *)

Lemma accepts_app {Σ X} (δ : Σ → X → Σ) (ok : Σ → X → Prop) σ l1 l2 :
  accepts δ ok σ (l1 ++ l2) ↔
  accepts δ ok σ l1 ∧ accepts δ ok (foldl δ σ l1) l2.
Proof.
  revert σ. induction l1 as [|x l1 IH]; intros σ; simpl; [tauto|].
  rewrite IH. tauto.
Qed.

Lemma accepts_at {Σ X} (δ : Σ → X → Σ) (ok : Σ → X → Prop) σ pre x post :
  accepts δ ok σ (pre ++ x :: post) → ok (foldl δ σ pre) x.
Proof. rewrite accepts_app. simpl. tauto. Qed.

(** An element that is not [P] lies past a prefix of elements that are. *)
Lemma app_cons_past {A} (P : A → Prop) (pre : list A) x post l1 l2 :
  pre ++ x :: post = l1 ++ l2 → Forall P l1 → ¬ P x →
  ∃ pre', pre = l1 ++ pre' ∧ l2 = pre' ++ x :: post.
Proof.
  revert pre. induction l1 as [|y l1 IH]; intros pre Heq HF Hx; simpl in *.
  - eauto.
  - apply Forall_cons in HF as [Hy HF].
    destruct pre as [|z pre]; simpl in Heq; injection Heq as -> Heq.
    + done.
    + destruct (IH pre Heq HF Hx) as (pre' & -> & ->). eauto.
Qed.

Lemma invocations_app t1 t2 :
  invocations (t1 ++ t2) = invocations t1 ++ invocations t2.
Proof. apply omap_app. Qed.

Lemma bind_eq {A B} (m : M A) (f : A → M B) st :
  (m ≫= f) st =
  (let r := m st in let r' := f r.1.1 r.1.2 in (r'.1.1, r'.1.2, r.2 ++ r'.2)).
Proof.
  unfold mbind, M_bind. destruct (m st) as [[a st1] t1]. simpl.
  by destruct (f a st1) as [[b st2] t2].
Qed.

Ltac run_binds := repeat (rewrite bind_eq; simpl).

(** ** From the function to the relation *)

Section Link.

Variable clock : nat → Z.
Variable rangeOrder : nat → Profiles → list (string * SchedulerProfile).

Lemma runProfile_eq request cs pods rs name profile st :
  let r := Run profile (world st) request cs pods in
  ∃ tr, runProfile request cs pods rs name profile st =
          (<[name := r.2.1]> rs, mkState r.1 (ticks st) (ranges st), tr)
        ∧ invocations tr =
          [(CallRun name request cs pods r.2.1 r.2.2, world st, r.1)].
Proof.
  unfold runProfile. run_binds.
  destruct (Run profile (world st) request cs pods) as [w1 [res [e|]]]; simpl;
    eexists; split; reflexivity.
Qed.

Lemma runProfiles_Wave request cs pods entries : ∀ rs st,
  let r := runProfiles request cs pods entries rs st in
  Wave request pods cs entries rs (world st)
    (invocations r.2) r.1.1 (world r.1.2)
  ∧ ticks r.1.2 = ticks st ∧ ranges r.1.2 = ranges st.
Proof.
  induction entries as [|[name profile] entries IH]; intros rs st; simpl.
  - split; [constructor | done].
  - rewrite bind_eq.
    destruct (runProfile_eq request cs pods rs name profile st)
      as (tr & -> & Htr).
    simpl. rewrite invocations_app, Htr. simpl.
    specialize (IH (<[name:=(Run profile (world st) request cs pods).2.1]> rs)
                  (mkState (Run profile (world st) request cs pods).1
                     (ticks st) (ranges st))).
    simpl in IH. destruct IH as (HW & Ht & Hr). split; [|done].
    econstructor; [|exact HW].
    by destruct (Run profile (world st) request cs pods) as [? [? ?]].
Qed.

Lemma rounds_Loop s request pods cs fuel : ∀ rs st,
  let r := rounds clock rangeOrder fuel s request pods cs rs st in
  Loop rangeOrder s request pods cs fuel (ranges st) rs (world st)
    (invocations r.2) r.1.1 (world r.1.2).
Proof.
  induction fuel as [|fuel IH]; intros rs st; simpl.
  - constructor.
  - run_binds.
    destruct (Pick (profileHandler s) (world st) cs request (profiles s) rs)
      as [w1 picked] eqn:HP.
    simpl. case_decide as Hsz; simpl.
    + by constructor.
    + run_binds. rewrite invocations_app.
      set (st1 := mkState w1 (S (S (ticks st))) (S (ranges st))).
      destruct (runProfiles_Wave request cs pods
                  (rangeOrder (ranges st) picked) rs st1) as (HW & Ht & Hr).
      specialize (IH (runProfiles request cs pods
                        (rangeOrder (ranges st) picked) rs st1).1.1
                    (runProfiles request cs pods
                        (rangeOrder (ranges st) picked) rs st1).1.2).
      simpl in IH. rewrite Hr in IH.
      eapply Loop_round; eauto.
Qed.

Lemma resultAttributes_eq res err st :
  ∃ tr, resultAttributes res err st = (tt, st, tr) ∧ invocations tr = [].
Proof.
  unfold resultAttributes.
  destruct (res ≫= TargetPod), err; eexists; split; reflexivity.
Qed.

Lemma Schedule_Scheduled fuel s request pods w :
  let r := run_Schedule clock rangeOrder fuel s request pods w in
  Scheduled rangeOrder fuel s request pods w (invocations r.2) r.1.1 r.1.2.
Proof.
  unfold run_Schedule, Schedule. simpl. run_binds.
  set (cs := NewCycleState_at w).
  set (st0 := mkState (<[cs:=∅]> w) 1 0).
  pose proof (rounds_Loop s request pods cs fuel ∅ st0) as HL. simpl in HL.
  destruct (rounds clock rangeOrder fuel s request pods cs ∅ st0)
    as [[[rs|] st1] tr1]; simpl in *.
  - case_decide as Hsz; simpl.
    + run_binds. rewrite invocations_app. simpl. rewrite app_nil_r.
      by eapply Scheduled_nothing_ran.
    + run_binds. rewrite !invocations_app.
      destruct (ProcessResults (profileHandler s) (world st1) cs request rs)
        as [w2 [res err]] eqn:HPR.
      simpl.
      destruct (resultAttributes_eq res err
                  (mkState w2 (S (S (ticks st1))) (ranges st1)))
        as (tr & -> & Htr).
      simpl. rewrite invocations_app, Htr. simpl.
      eapply Scheduled_processed; eauto.
  - rewrite app_nil_r. by constructor.
Qed.

(** What [Schedule] does once the loop is over. *)
Lemma Schedule_after_loop fuel s request pods w :
  let cs := NewCycleState_at w in
  let l := Schedule_loop clock rangeOrder fuel s request pods w in
  let r := run_Schedule clock rangeOrder fuel s request pods w in
  let new := (CallNewCycleState cs, w, <[cs := ∅]> w) in
  match l.1.1 with
  | None =>
      r.1.1 = None ∧ r.1.2 = world l.1.2
      ∧ invocations r.2 = new :: invocations l.2
  | Some rs =>
      if decide (size rs = 0) then
        r.1.1 = Some (None, Some (NoProfilesRun request))
        ∧ r.1.2 = world l.1.2
        ∧ invocations r.2 = new :: invocations l.2
      else
        let p := ProcessResults (profileHandler s) (world l.1.2) cs
                   request rs in
        r.1.1 = Some p.2 ∧ r.1.2 = p.1
        ∧ invocations r.2 =
            new :: invocations l.2
              ++ [(CallProcessResults cs request rs p.2.1 p.2.2,
                   world l.1.2, p.1)]
  end.
Proof.
  unfold run_Schedule, Schedule, Schedule_loop. simpl. run_binds.
  destruct (rounds clock rangeOrder fuel s request pods (NewCycleState_at w) ∅
              (mkState (<[NewCycleState_at w:=∅]> w) 1 0))
    as [[[rs|] st1] tr1]; simpl.
  - case_decide as Hsz; simpl.
    + run_binds. rewrite invocations_app. simpl. by rewrite app_nil_r.
    + run_binds. rewrite !invocations_app.
      destruct (ProcessResults (profileHandler s) (world st1)
                  (NewCycleState_at w) request rs) as [w2 [res err]].
      simpl.
      destruct (resultAttributes_eq res err
                  (mkState w2 (S (S (ticks st1))) (ranges st1)))
        as (tr & -> & Htr).
      simpl. by rewrite invocations_app, Htr.
  - by rewrite app_nil_r.
Qed.

Lemma Schedule_loop_Loop fuel s request pods w :
  let l := Schedule_loop clock rangeOrder fuel s request pods w in
  Loop rangeOrder s request pods (NewCycleState_at w) fuel 0 ∅
    (<[NewCycleState_at w := ∅]> w) (invocations l.2) l.1.1 (world l.1.2).
Proof.
  exact (rounds_Loop s request pods (NewCycleState_at w) fuel ∅
           (mkState (<[NewCycleState_at w := ∅]> w) 1 0)).
Qed.

(** Fuel only cuts the loop short: a call that returns with some fuel
    does the same with more. *)
Lemma rounds_more_fuel s request pods cs fuel k : ∀ rs st,
  is_Some (rounds clock rangeOrder fuel s request pods cs rs st).1.1 →
  rounds clock rangeOrder (fuel + k) s request pods cs rs st
  = rounds clock rangeOrder fuel s request pods cs rs st.
Proof.
  induction fuel as [|fuel IH]; intros rs st; simpl.
  - by intros [? ?].
  - run_binds. case_decide as Hsz; [done|]. run_binds.
    intros Hended. by rewrite IH.
Qed.

Lemma Schedule_more_fuel fuel k s request pods w :
  is_Some (run_Schedule clock rangeOrder fuel s request pods w).1.1 →
  run_Schedule clock rangeOrder (fuel + k) s request pods w
  = run_Schedule clock rangeOrder fuel s request pods w.
Proof.
  unfold run_Schedule, Schedule. simpl. run_binds.
  set (st0 := mkState _ 1 0).
  intros Hended.
  rewrite rounds_more_fuel; [done|].
  destruct (rounds clock rangeOrder fuel s request pods (NewCycleState_at w) ∅ st0)
    as [[[rs|] st1] tr1]; simpl in *; [done|].
  by destruct Hended.
Qed.

End Link.

(** ** What the loop does *)

Section LoopFacts.

Variable rangeOrder : nat → Profiles → list (string * SchedulerProfile).
Variables (s : Scheduler) (request : LLMRequest) (candidatePods : list Pod).
Variable cycleState : loc.

Let wave := Wave request candidatePods cycleState.
Let loop := Loop rangeOrder s request candidatePods cycleState.
Let sound (i : Invocation) : Prop :=
  genuine (profileHandler s) i
  ∧ addressed s request candidatePods cycleState (call_of i).



Lemma Wave_recorded entries rs w invs rs' w' :
  wave entries rs w invs rs' w' →
  reads_recorded rs (call_of <$> invs)
  ∧ rs' = foldl record rs (call_of <$> invs)
  ∧ Forall (λ i, is_Run (call_of i) = true) invs.
Proof.
  induction 1 as [|name profile entries rs w w1 result err invs rs' w'
                    HR HW (IH1 & IH2 & IH3)]; simpl; [done|].
  repeat split; try done. by constructor.
Qed.

Lemma Loop_recorded fuel n rs w invs ended w' :
  loop fuel n rs w invs ended w' →
  reads_recorded rs (call_of <$> invs)
  ∧ ∀ rs', ended = Some rs' → rs' = foldl record rs (call_of <$> invs).
Proof.
  induction 1 as [| |fuel n rs w w1 picked wv rs1 w2 invs ended w'
                      HP Hsz HW HL [IH1 IH2]]; simpl.
  - done.
  - repeat split; [by intros ? [= <-] | by intros ? [= <-]].
  - apply Wave_recorded in HW as (HW1 & HW2 & _).
    unfold reads_recorded in *. rewrite fmap_app, accepts_app, foldl_app.
    simpl. subst rs1. repeat split; try done. by intros ? [= <-].
Qed.

Lemma Wave_sound entries rs w invs rs' w' :
  wave entries rs w invs rs' w' → Forall sound invs.
Proof. induction 1; constructor; unfold sound; simpl; eauto. Qed.

Lemma Loop_sound fuel n rs w invs ended w' :
  loop fuel n rs w invs ended w' → Forall sound invs.
Proof.
  induction 1 as [| |fuel n rs w w1 picked wv rs1 w2 invs ended w'
                      HP Hsz HW HL IH].
  - constructor.
  - repeat constructor; simpl; done.
  - constructor; [by unfold sound|].
    apply Forall_app. split; [by eapply Wave_sound | done].
Qed.


End LoopFacts.

(** ** What a call of [Schedule] does *)

(** The three ways a call of [Schedule] goes, in one statement. *)
Lemma Scheduled_inv rangeOrder fuel s request pods w invs ret w' :
  Scheduled rangeOrder fuel s request pods w invs ret w' →
  ∃ inner ended w1 tail,
    invs = (CallNewCycleState (NewCycleState_at w), w,
            <[NewCycleState_at w := ∅]> w) :: inner ++ tail
    ∧ Loop rangeOrder s request pods (NewCycleState_at w) fuel 0 ∅
        (<[NewCycleState_at w := ∅]> w) inner ended w1
    ∧ match ended with
      | None => ret = None ∧ tail = [] ∧ w' = w1
      | Some rs =>
          (size rs = 0 ∧ ret = Some (None, Some (NoProfilesRun request))
           ∧ tail = [] ∧ w' = w1)
          ∨ (size rs ≠ 0 ∧ ∃ result err,
               ProcessResults (profileHandler s) w1 (NewCycleState_at w)
                 request rs = (w', (result, err))
               ∧ ret = Some (result, err)
               ∧ tail = [(CallProcessResults (NewCycleState_at w) request rs
                            result err, w1, w')])
      end.
Proof.
  destruct 1 as [invs w' HL|invs rs w' HL Hsz|invs rs w1 w' result err HL Hsz HP].
  - exists invs, None, w', []. rewrite app_nil_r. auto.
  - exists invs, (Some rs), w', []. rewrite app_nil_r. split; [done|]. split; [done|].
    left. auto.
  - exists invs, (Some rs), w1,
      [(CallProcessResults (NewCycleState_at w) request rs result err, w1, w')].
    split; [done|]. split; [done|]. right. eauto 10.
Qed.

Section LoopKinds.
Variable rangeOrder : nat → Profiles → list (string * SchedulerProfile).
Variables (s : Scheduler) (request : LLMRequest) (candidatePods : list Pod).
Variable cycleState : loc.

Lemma Wave_runs entries rs w invs rs' w' :
  Wave request candidatePods cycleState entries rs w invs rs' w' →
  Forall (λ i, is_Run (call_of i) = true) invs.
Proof. induction 1; by constructor. Qed.

Lemma Loop_kinds fuel n rs w invs ended w' :
  Loop rangeOrder s request candidatePods cycleState fuel n rs w invs ended w' →
  Forall (λ i, is_NewCycleState (call_of i) = false
               ∧ is_ProcessResults (call_of i) = false) invs.
Proof.
  induction 1 as [| |fuel n rs w w1 picked wv rs1 w2 invs ended w'
                      HP Hsz HW HL IH].
  - constructor.
  - by repeat constructor.
  - constructor; [done|]. apply Forall_app. split; [|done].
    eapply Forall_impl; [by eapply Wave_runs|].
    intros [[[] ?] ?]; by simpl.
Qed.
End LoopKinds.

(** What [record] keeps. *)
Lemma record_lookup_ne rs c name :
  run_name c ≠ Some name → record rs c !! name = rs !! name.
Proof.
  destruct c; simpl; try done.
  intros Hne. apply lookup_insert_ne. congruence.
Qed.

Lemma foldl_record_lookup_ne l : ∀ rs name,
  Forall (λ c, run_name c ≠ Some name) l →
  foldl record rs l !! name = rs !! name.
Proof.
  induction l as [|c l IH]; intros rs name HF; simpl; [done|].
  apply Forall_cons in HF as [Hc HF].
  rewrite IH by done. by apply record_lookup_ne.
Qed.

Lemma foldl_record_is_Some l : ∀ rs name,
  is_Some (rs !! name) → is_Some (foldl record rs l !! name).
Proof.
  induction l as [|c l IH]; intros rs name Hs; simpl; [done|].
  apply IH. destruct c; simpl; try done.
  destruct (decide (name0 = name)) as [->|Hne].
  - rewrite lookup_insert_eq. eauto.
  - by rewrite lookup_insert_ne.
Qed.

Section ScheduledFacts.
Variable rangeOrder : nat → Profiles → list (string * SchedulerProfile).
Variables (fuel : nat) (s : Scheduler) (request : LLMRequest).
Variables (candidatePods : list Pod) (w : World).


Lemma Scheduled_reads_recorded invs ret w' :
  Scheduled rangeOrder fuel s request candidatePods w invs ret w' →
  reads_recorded ∅ (call_of <$> invs).
Proof.
  intros HS.
  apply Scheduled_inv in HS as (inner & ended & w1 & tail & -> & HL & Hend).
  apply Loop_recorded in HL as [HL1 HL2].
  unfold reads_recorded in *. rewrite fmap_cons, fmap_app. simpl.
  rewrite accepts_app. split; [done|]. split; [done|].
  destruct ended as [rs|].
  - destruct Hend as [(_ & _ & -> & _)|(_ & result & err & _ & _ & ->)];
      simpl; [done|].
    split; [|done]. intros ? [= <-]. by apply HL2.
  - by destruct Hend as (_ & -> & _).
Qed.

Lemma Scheduled_sound invs ret w' :
  Scheduled rangeOrder fuel s request candidatePods w invs ret w' →
  Forall (λ i, genuine (profileHandler s) i
               ∧ addressed s request candidatePods (NewCycleState_at w)
                   (call_of i)) invs.
Proof.
  intros HS.
  apply Scheduled_inv in HS as (inner & ended & w1 & tail & -> & HL & Hend).
  apply Loop_sound in HL.
  constructor; [done|]. apply Forall_app. split; [done|].
  destruct ended as [rs|].
  - destruct Hend as [(_ & _ & -> & _)|(_ & result & err & HP & _ & ->)];
      [done|].
    by repeat constructor.
  - by destruct Hend as (_ & -> & _).
Qed.
End ScheduledFacts.

Section LoopPicks.
Variable rangeOrder : nat → Profiles → list (string * SchedulerProfile).
Variables (s : Scheduler) (request : LLMRequest) (candidatePods : list Pod).
Variable cycleState : loc.

Lemma Wave_no_pick entries rs w invs rs' w' :
  Wave request candidatePods cycleState entries rs w invs rs' w' →
  omap picked_of (call_of <$> invs) = [].
Proof. induction 1; by simpl. Qed.

Lemma Loop_picks fuel n rs w invs ended w' :
  Loop rangeOrder s request candidatePods cycleState fuel n rs w invs ended w' →
  let picks := omap picked_of (call_of <$> invs) in
  match ended with
  | Some _ => ∃ ps, picks = ps ++ [∅] ∧ Forall (λ p, p ≠ ∅) ps
  | None => Forall (λ p, p ≠ ∅) picks ∧ length picks = fuel
  end.
Proof.
  induction 1 as [| fuel n rs w w1 picked HP Hsz
                  |fuel n rs w w1 picked wv rs1 w2 invs ended w'
                      HP Hsz HW HL IH]; simpl.
  - by split.
  - apply map_size_empty_iff in Hsz as ->. by exists [].
  - rewrite fmap_app, omap_app, (Wave_no_pick _ _ _ _ _ _ HW). simpl.
    assert (picked ≠ ∅) as Hne by (by intros ->).
    destruct ended as [rs'|]; simpl in IH.
    + destruct IH as (ps & -> & HF). exists (picked :: ps).
      split; [done | by constructor].
    + destruct IH as [HF <-]. split; [by constructor | done].
Qed.
End LoopPicks.



Section WaveRounds.
Variable rangeOrder : nat → Profiles → list (string * SchedulerProfile).
Variables (s : Scheduler) (request : LLMRequest) (candidatePods : list Pod).
Variable cycleState : loc.


End WaveRounds.



Section OrderIndependence.
Variables (s : Scheduler) (request : LLMRequest) (pods : list Pod).
Variable cs : loc.

Lemma Wave_foldl entries rs w invs rs' w' :
  Wave request pods cs entries rs w invs rs' w' →
  foldl (run_entry request cs pods) (rs, w) entries = (rs', w').
Proof.
  induction 1 as [|name profile entries rs w w1 result err invs rs' w'
                    HR HW IH]; simpl; [done|].
  unfold run_entry at 2. simpl. by rewrite HR.
Qed.

Lemma run_entry_swap σ x y :
  x.1 ≠ y.1 → commute request cs pods x.2 y.2 →
  run_entry request cs pods (run_entry request cs pods σ x) y
  = run_entry request cs pods (run_entry request cs pods σ y) x.
Proof.
  intros Hne Hc. destruct (Hc σ.2) as (Hw & Hx & Hy).
  unfold run_entry. simpl. f_equal; [|done].
  rewrite Hx, <- Hy. by apply insert_insert_ne.
Qed.

Lemma foldl_run_entry_perm l1 l2 :
  l1 ≡ₚ l2 → NoDup l1.*1 →
  (∀ x y, x ∈ l1 → y ∈ l1 → x.1 ≠ y.1 → commute request cs pods x.2 y.2) →
  ∀ σ, foldl (run_entry request cs pods) σ l1
       = foldl (run_entry request cs pods) σ l2.
Proof.
  induction 1 as [|x l1 l2 Hp IH|x y l|l1 l2 l3 Hp1 IH1 Hp2 IH2];
    intros Hnd Hc σ; simpl.
  - done.
  - rewrite fmap_cons in Hnd. apply NoDup_cons in Hnd as [_ Hnd].
    apply IH; [done|]. intros a b Ha Hb. apply Hc; by right.
  - rewrite !fmap_cons in Hnd.
    apply NoDup_cons in Hnd as [Hy _].
    assert (y.1 ≠ x.1) as Hne by (intros Heq; apply Hy; rewrite Heq; left).
    f_equal. apply run_entry_swap; [done|].
    apply Hc; [left | right; left | done].
  - rewrite IH1 by done. apply IH2.
    + by rewrite <- Hp1.
    + intros a b Ha Hb. apply Hc; by rewrite Hp1.
Qed.
End OrderIndependence.

Section OrderIndependence_loop.
Variables order1 order2 : nat → Profiles → list (string * SchedulerProfile).
Variables (s : Scheduler) (request : LLMRequest) (pods : list Pod).
Hypothesis order1_perm : ∀ n m, order1 n m ≡ₚ map_to_list m.
Hypothesis order2_perm : ∀ n m, order2 n m ≡ₚ map_to_list m.
Hypothesis Hcommute : waves_commute s request pods.

Lemma Loop_order_independent cs fuel n1 rs w invs1 ended1 w1 :
  Loop order1 s request pods cs fuel n1 rs w invs1 ended1 w1 →
  ∀ n2 invs2 ended2 w2,
    Loop order2 s request pods cs fuel n2 rs w invs2 ended2 w2 →
    ended1 = ended2 ∧ w1 = w2.
Proof.
  induction 1 as [| fuel n1 rs w w1 picked HP Hsz
                  |fuel n1 rs w w1 picked wv rs1 w2 invs ended w'
                      HP Hsz HW HL IH];
    intros n2 invs2 ended2 w2' HL2.
  - by inversion HL2.
  - inversion HL2 as [| ? ? ? ? v1 pk HP2 Hsz2
                      | ? ? ? ? v1 pk ? ? ? ? ? ? HP2 Hsz2];
      subst; rewrite HP in HP2; injection HP2 as <- <-; done.
  - inversion HL2 as [| ? ? ? ? v1 pk HP2 Hsz2
                      | ? ? ? ? v1 pk wv2 rs2 w3 ? ? ? HP2 Hsz2 HW2 HL2'];
      subst; rewrite HP in HP2; injection HP2 as <- <-; [done|].
    apply Wave_foldl in HW, HW2.
    rewrite (foldl_run_entry_perm request pods cs
               (order1 n1 picked) (order2 n2 picked)) in HW.
    + rewrite HW in HW2. injection HW2 as <- <-. by eapply IH.
    + by rewrite order1_perm, order2_perm.
    + rewrite order1_perm. apply NoDup_fst_map_to_list.
    + intros [nx px] [ny py] Hx Hy Hne. simpl in *.
      eapply (Hcommute w cs rs nx px ny py); [| |done];
        rewrite HP; simpl; apply elem_of_map_to_list;
        by rewrite <- (order1_perm n1 picked).
Qed.

Lemma Scheduled_order_independent fuel w invs1 ret1 w1 invs2 ret2 w2 :
  Scheduled order1 fuel s request pods w invs1 ret1 w1 →
  Scheduled order2 fuel s request pods w invs2 ret2 w2 →
  ret1 = ret2 ∧ w1 = w2.
Proof.
  intros H1 H2.
  apply Scheduled_inv in H1 as (inner1 & ended1 & u1 & tail1 & _ & HL1 & Hend1).
  apply Scheduled_inv in H2 as (inner2 & ended2 & u2 & tail2 & _ & HL2 & Hend2).
  destruct (Loop_order_independent _ _ _ _ _ _ _ _ HL1 _ _ _ _ HL2)
    as [<- <-].
  destruct ended1 as [rs|].
  - destruct Hend1 as [(Hsz1 & -> & _ & ->)|(Hsz1 & r1 & e1 & HP1 & -> & _)];
    destruct Hend2 as [(Hsz2 & -> & _ & ->)|(Hsz2 & r2 & e2 & HP2 & -> & _)];
      try done.
    rewrite HP1 in HP2. by simplify_eq.
  - destruct Hend1 as (-> & _ & ->). by destruct Hend2 as (-> & _ & ->).
Qed.
End OrderIndependence_loop.

(** * The claims *)

Import Examples.

Lemma in_map_order_perm n (m : Profiles) : in_map_order n m ≡ₚ map_to_list m.
Proof. done. Qed.

Lemma in_reverse_order_perm n (m : Profiles) :
  in_reverse_order n m ≡ₚ map_to_list m.
Proof. apply reverse_Permutation. Qed.

(** The scenario of the spec in which "p1" fails and "p2" is the
    fallback: three rounds, and the target is the pod that "p2" selected. *)
Example fallback_scenario :
  let r := run_Schedule ticking in_map_order 3 S_fallback r1 [podA] ∅ in
  is_Run <$> calls r.2 = [false; false; true; false; true; false; false]
  ∧ omap run_name (calls r.2) = ["p1"; "p2"]
  ∧ r.1.1 = Some (Some (mkSchedulingResult (Some podA) nil_then_A), None).
Proof. vm_compute. done. Qed.

(** With two rounds of fuel the same call has not left the loop. *)
Example fallback_scenario_out_of_fuel :
  (run_Schedule ticking in_map_order 2 S_fallback r1 [podA] ∅).1.1 = None.
Proof. vm_compute. done. Qed.

(** ** Waves *)



(** ** C1 *)



(** ** C2 *)

(** C2.  When the first [Pick] of a call returns the empty selection,
    [Schedule] returns no result and the error of line 98, whose message
    ends with the id of the request, and the call makes no [Run] and no
    [ProcessResults]. *)
Theorem Schedule_no_profile_picked clock rangeOrder fuel s request pods w :
  (Pick (profileHandler s) (<[NewCycleState_at w := ∅]> w)
     (NewCycleState_at w) request (profiles s) ∅).2 = ∅ →
  let r := run_Schedule clock rangeOrder (S fuel) s request pods w in
  r.1.1 = Some (None, Some (NoProfilesRun request))
  ∧ NoProfilesRun request =
      "failed to run any scheduler profile for request " +:+ RequestId request
  ∧ Forall (λ c, is_Run c = false ∧ is_ProcessResults c = false) (calls r.2).
Proof.
  intros Hpick r.
  pose proof (Schedule_Scheduled clock rangeOrder (S fuel) s request pods w) as HS.
  apply Scheduled_inv in HS as (inner & ended & w1 & tail & Hinv & HL & Hend).
  fold r in Hinv, Hend. unfold calls. rewrite Hinv. clear Hinv.
  inversion HL as [| ? ? ? ? ? picked HP Hsz | ? ? ? ? ? picked ? ? ? ? ? ? HP Hsz];
    subst; rewrite HP in Hpick; simpl in Hpick; subst picked.
  - destruct Hend as [(_ & -> & -> & _)|(Hne & _)]; [|by rewrite map_size_empty in Hne].
    split; [done|]. split; [done|]. repeat constructor.
  - by rewrite map_size_empty in Hsz.
Qed.

Lemma Schedule_no_profile_picked_witness :
  let r := run_Schedule ticking in_map_order 1 S_idle r1 [podA; podB] ∅ in
  r.1.1 = Some (None, Some (NoProfilesRun r1))
  ∧ NoProfilesRun r1 =
      "failed to run any scheduler profile for request " +:+ RequestId r1
  ∧ Forall (λ c, is_Run c = false ∧ is_ProcessResults c = false) (calls r.2).
Proof.
  apply (Schedule_no_profile_picked ticking in_map_order 0 S_idle r1
           [podA; podB] ∅).
  reflexivity.
Defined.

(** ** C3 *)

(** C3.  When the loop of a call of [Schedule] ends with a results map
    that is not empty, [Schedule] returns, and it returns the very pair
    that [ProcessResults] returns for that map in the world the loop has
    left; that call of [ProcessResults] is the last call [Schedule]
    makes, no call before it is one, and the map it is given is the one
    that the runs of the call have accumulated. *)
Theorem Schedule_returns_ProcessResults
    clock rangeOrder fuel s request pods w rs :
  let cs := NewCycleState_at w in
  let l := Schedule_loop clock rangeOrder fuel s request pods w in
  let r := run_Schedule clock rangeOrder fuel s request pods w in
  l.1.1 = Some rs →
  rs ≠ ∅ →
  let p := ProcessResults (profileHandler s) (world l.1.2) cs request rs in
  r.1.1 = Some p.2
  ∧ r.1.2 = p.1
  ∧ ∃ pre,
      invocations r.2 =
        pre ++ [(CallProcessResults cs request rs p.2.1 p.2.2,
                 world l.1.2, p.1)]
      ∧ Forall (λ i, is_ProcessResults (call_of i) = false) pre
      ∧ rs = recorded (call_of <$> pre).
Proof.
  intros cs l r Hl Hne p.
  pose proof (Schedule_after_loop clock rangeOrder fuel s request pods w)
    as HS.
  pose proof (Schedule_loop_Loop clock rangeOrder fuel s request pods w)
    as HL.
  cbv zeta in HS, HL. fold cs l r in HS, HL. rewrite Hl in HS, HL.
  case_decide as Hsz; [by apply map_size_empty_iff in Hsz|].
  fold p in HS. destruct HS as (Hret & Hw & Hinv).
  split; [done|]. split; [done|].
  exists ((CallNewCycleState cs, w, <[cs := ∅]> w) :: invocations l.2).
  split; [done|]. split.
  - constructor; [done|].
    eapply Forall_impl; [by eapply Loop_kinds|]. by intros ? [_ ?].
  - apply Loop_recorded in HL as [_ HL]. by apply HL.
Qed.

Lemma Schedule_returns_ProcessResults_witness :
  let l := Schedule_loop ticking in_map_order 3 S_fallback r1 [podA] ∅ in
  let r := run_Schedule ticking in_map_order 3 S_fallback r1 [podA] ∅ in
  let p := ProcessResults (profileHandler S_fallback) (world l.1.2)
             (NewCycleState_at ∅) r1 nil_then_A in
  r.1.1 = Some p.2
  ∧ r.1.2 = p.1
  ∧ ∃ pre,
      invocations r.2 =
        pre ++ [(CallProcessResults (NewCycleState_at ∅) r1 nil_then_A
                   p.2.1 p.2.2, world l.1.2, p.1)]
      ∧ Forall (λ i, is_ProcessResults (call_of i) = false) pre
      ∧ nil_then_A = recorded (call_of <$> pre).
Proof.
  apply (Schedule_returns_ProcessResults ticking in_map_order 3 S_fallback
           r1 [podA] ∅ nil_then_A).
  - vm_compute. reflexivity.
  - intros Hempty. apply (f_equal (λ m : ProfileRunResults, size m)) in Hempty.
    vm_compute in Hempty. discriminate.
Defined.

(** ** C4 *)

(** C4, counterexample: the handler returns a result together with an
    error from [ProcessResults], and [Schedule] returns both. *)
Lemma Schedule_returns_result_with_error :
  (run_Schedule ticking in_map_order 2 S_loud r1 [podA] ∅).1.1
  = Some (Some (mkSchedulingResult (Some podA) both_A), Some "degraded").
Proof. vm_compute. reflexivity. Qed.

(** C4, amended.  When the loop of a call of [Schedule] ends, [Schedule]
    returns one of two things: with an empty results map, no result and
    the error of line 98, having made no call of [ProcessResults]; and
    otherwise the pair that its last call, the call of [ProcessResults],
    returned.  So it returns a result together with an error exactly
    when [ProcessResults] returned the two together. *)
Theorem Schedule_returns_NoProfilesRun_or_ProcessResults
    clock rangeOrder fuel s request pods w rs :
  let cs := NewCycleState_at w in
  let l := Schedule_loop clock rangeOrder fuel s request pods w in
  let r := run_Schedule clock rangeOrder fuel s request pods w in
  l.1.1 = Some rs →
  (rs = ∅
   ∧ r.1.1 = Some (None, Some (NoProfilesRun request))
   ∧ Forall (λ c, is_ProcessResults c = false) (calls r.2))
  ∨ (rs ≠ ∅
     ∧ let p := ProcessResults (profileHandler s) (world l.1.2) cs
                  request rs in
       r.1.1 = Some p.2
       ∧ last (invocations r.2)
         = Some (CallProcessResults cs request rs p.2.1 p.2.2,
                 world l.1.2, p.1)).
Proof.
  intros cs l r Hl.
  pose proof (Schedule_after_loop clock rangeOrder fuel s request pods w)
    as HS.
  pose proof (Schedule_loop_Loop clock rangeOrder fuel s request pods w)
    as HL.
  cbv zeta in HS, HL. fold cs l r in HS, HL. rewrite Hl in HS, HL.
  case_decide as Hsz; destruct HS as (Hret & Hw & Hinv).
  - left. split; [by apply map_size_empty_iff|]. split; [done|].
    unfold calls. rewrite Hinv. constructor; [done|]. apply Forall_fmap.
    eapply Forall_impl; [by eapply Loop_kinds|]. by intros ? [_ ?].
  - right. split; [by intros ->|]. intros p. split; [done|].
    rewrite Hinv.
    change (?x :: ?l ++ [?y]) with ((x :: l) ++ [y]). apply last_snoc.
Qed.

Lemma Schedule_returns_NoProfilesRun_or_ProcessResults_witness :
  let cs := NewCycleState_at ∅ in
  let l := Schedule_loop ticking in_map_order 2 S_loud r1 [podA] ∅ in
  let r := run_Schedule ticking in_map_order 2 S_loud r1 [podA] ∅ in
  (both_A = ∅
   ∧ r.1.1 = Some (None, Some (NoProfilesRun r1))
   ∧ Forall (λ c, is_ProcessResults c = false) (calls r.2))
  ∨ (both_A ≠ ∅
     ∧ let p := ProcessResults (profileHandler S_loud) (world l.1.2) cs
                  r1 both_A in
       r.1.1 = Some p.2
       ∧ last (invocations r.2)
         = Some (CallProcessResults cs r1 both_A p.2.1 p.2.2,
                 world l.1.2, p.1)).
Proof.
  apply (Schedule_returns_NoProfilesRun_or_ProcessResults ticking
           in_map_order 2 S_loud r1 [podA] ∅ both_A).
  vm_compute. reflexivity.
Defined.

(** ** C5 *)


(** ** C6 *)

(** C6.  Once a [Run] under a name has been recorded, every later call
    of [Pick] and the call of [ProcessResults] are given a map that has
    an entry under that name: the map is the one accumulated by all the
    runs so far, in order.  The entry is the result of that run as long
    as no later run was made under the same name, and otherwise the
    result of the latest such run. *)
Theorem results_accumulate clock rangeOrder fuel s request pods w :
  let r := run_Schedule clock rangeOrder fuel s request pods w in
  ∀ pre name rq cs cpods result err mid reader rs post,
    calls r.2
      = pre ++ CallRun name rq cs cpods result err :: mid ++ reader :: post →
    reads reader = Some rs →
    rs = recorded (pre ++ CallRun name rq cs cpods result err :: mid)
    ∧ is_Some (rs !! name)
    ∧ (Forall (λ c, run_name c ≠ Some name) mid → rs !! name = Some result)
    ∧ (∀ mid1 rq' cs' cpods' result' err' mid2,
         mid = mid1 ++ CallRun name rq' cs' cpods' result' err' :: mid2 →
         Forall (λ c, run_name c ≠ Some name) mid2 →
         rs !! name = Some result').
Proof.
  intros r pre name rq cs cpods result err mid reader rs post Heq Hreads.
  assert (Scheduled rangeOrder fuel s request pods w
            (invocations r.2) r.1.1 r.1.2) as HS
    by apply Schedule_Scheduled.
  apply Scheduled_reads_recorded in HS. fold (calls r.2) in HS.
  rewrite Heq in HS.
  change (pre ++ CallRun name rq cs cpods result err :: mid ++ reader :: post)
    with (pre ++ [CallRun name rq cs cpods result err] ++ mid ++ reader :: post)
    in HS.
  rewrite !app_assoc in HS. apply accepts_at in HS.
  specialize (HS rs Hreads). rewrite <- app_assoc in HS. simpl in HS.
  fold (recorded (pre ++ CallRun name rq cs cpods result err :: mid)) in HS.
  split; [done|]. subst rs. unfold recorded.
  rewrite foldl_app. simpl. split; [|split].
  - apply foldl_record_is_Some. rewrite lookup_insert_eq. eauto.
  - intros HF. rewrite foldl_record_lookup_ne by done.
    apply lookup_insert_eq.
  - intros mid1 rq' cs' cpods' result' err' mid2 -> HF.
    rewrite foldl_app. simpl. rewrite foldl_record_lookup_ne by done.
    apply lookup_insert_eq.
Qed.

Lemma results_accumulate_witness :
  let r := run_Schedule ticking in_map_order 3 S_fallback r1 [podA] ∅ in
  let run_p1 := CallRun "p1" r1 0 [podA] None (Some "no pods available") in
  let pre := take 2 (calls r.2) in
  let mid := take 3 (drop 3 (calls r.2)) in
  nil_then_A = recorded (pre ++ run_p1 :: mid)
  ∧ is_Some (nil_then_A !! "p1")
  ∧ (Forall (λ c, run_name c ≠ Some "p1") mid → nil_then_A !! "p1" = Some None)
  ∧ (∀ mid1 rq' cs' cpods' result' err' mid2,
       mid = mid1 ++ CallRun "p1" rq' cs' cpods' result' err' :: mid2 →
       Forall (λ c, run_name c ≠ Some "p1") mid2 →
       nil_then_A !! "p1" = Some result').
Proof.
  intros r run_p1 pre mid.
  apply (results_accumulate ticking in_map_order 3 S_fallback r1 [podA] ∅
           pre "p1" r1 0 [podA] None (Some "no pods available") mid
           (CallProcessResults 0 r1 nil_then_A
              (Some (mkSchedulingResult (Some podA) nil_then_A)) None)
           nil_then_A []).
  - vm_compute. reflexivity.
  - reflexivity.
Defined.

(** ** C7 *)

(** C7.  The selections that the calls of [Pick] of one call of
    [Schedule] return are, in order: when [Schedule] returns, selections
    that are not empty followed by one empty selection, the last; and
    when the fuel is used up, as many selections as there was fuel, none
    of them empty.  So the loop is left at an empty selection and nowhere
    else, every other selection is followed by a further round, and
    nothing but the selections bounds the number of rounds. *)
Theorem loop_ends_only_on_empty_Pick clock rangeOrder fuel s request pods w :
  let r := run_Schedule clock rangeOrder fuel s request pods w in
  let picks := omap picked_of (calls r.2) in
  match r.1.1 with
  | Some _ => ∃ ps, picks = ps ++ [∅] ∧ Forall (λ p, p ≠ ∅) ps
  | None => Forall (λ p, p ≠ ∅) picks ∧ length picks = fuel
  end.
Proof.
  intros r picks.
  assert (Scheduled rangeOrder fuel s request pods w
            (invocations r.2) r.1.1 r.1.2) as HS
    by apply Schedule_Scheduled.
  apply Scheduled_inv in HS as (inner & ended & w1 & tail & Hinv & HL & Hend).
  apply Loop_picks in HL. simpl in HL.
  assert (picks = omap picked_of (call_of <$> inner)
                  ++ omap picked_of (call_of <$> tail)) as ->.
  { unfold picks, calls. rewrite Hinv, fmap_cons, fmap_app.
    change (omap picked_of ((call_of <$> inner) ++ (call_of <$> tail))
            = omap picked_of (call_of <$> inner)
              ++ omap picked_of (call_of <$> tail)).
    apply omap_app. }
  destruct ended as [rs|].
  - destruct HL as (ps & -> & HF).
    destruct Hend as [(_ & -> & -> & _)|(_ & result & err & _ & -> & ->)];
      simpl; rewrite app_nil_r; eauto.
  - destruct Hend as (-> & -> & _). simpl. by rewrite app_nil_r.
Qed.

(** ** C8 *)

(** C8, counterexample: "p1" leaves a mark in the cycle state and "p2"
    selects by the mark it finds; the handler picks the two together.
    The same call returns pod A when [range] yields "p1" first and pod B
    when it yields "p2" first. *)
Lemma Schedule_depends_on_wave_order :
  let target (ret : option (option SchedulingResult * option error)) :=
    ret ≫= (λ p, p.1 ≫= TargetPod) in
  (∀ n m, in_map_order n m ≡ₚ map_to_list m)
  ∧ (∀ n m, in_reverse_order n m ≡ₚ map_to_list m)
  ∧ target (run_Schedule ticking in_map_order 2 S_marks r1 [podA] ∅).1.1
    = Some podA
  ∧ target (run_Schedule ticking in_reverse_order 2 S_marks r1 [podA] ∅).1.1
    = Some podB.
Proof.
  split; [exact in_map_order_perm|]. split; [exact in_reverse_order_perm|].
  vm_compute. done.
Qed.

Lemma S_apart_waves_commute : waves_commute S_apart r1 [podA].
Proof.
  intros w cs rs n1 p1 n2 p2 picked H1 H2 Hne. subst picked.
  simpl in H1, H2. case_decide; [|by rewrite lookup_empty in H1].
  unfold two in H1, H2.
  apply lookup_insert_Some in H1 as [[<- <-]|[_ H1]];
    [|apply lookup_insert_Some in H1 as [[<- <-]|[_ H1]];
      [|by rewrite lookup_empty in H1]];
    (apply lookup_insert_Some in H2 as [[<- <-]|[_ H2]];
      [|apply lookup_insert_Some in H2 as [[<- <-]|[_ H2]];
        [|by rewrite lookup_empty in H2]]);
    by intros w'.
Qed.

(** C8, amended.  Two calls of [Schedule] with the same request, the
    same candidate pods, the same scheduler and the same world return the
    same result and leave the same world, whatever the clock shows and in
    whatever order [range] yields the profiles of a wave, provided that
    any two profiles that the handler picks together commute.  (Without
    that proviso the result can depend on the order of the wave.) *)
Theorem Schedule_deterministic order1 order2 s request pods :
  (∀ n m, order1 n m ≡ₚ map_to_list m) →
  (∀ n m, order2 n m ≡ₚ map_to_list m) →
  waves_commute s request pods →
  ∀ clock1 clock2 fuel w,
    (run_Schedule clock1 order1 fuel s request pods w).1
    = (run_Schedule clock2 order2 fuel s request pods w).1.
Proof.
  intros H1 H2 Hc clock1 clock2 fuel w.
  pose proof (Schedule_Scheduled clock1 order1 fuel s request pods w) as HS1.
  pose proof (Schedule_Scheduled clock2 order2 fuel s request pods w) as HS2.
  cbv zeta in HS1, HS2.
  destruct (Scheduled_order_independent order1 order2 s request pods
              H1 H2 Hc _ _ _ _ _ _ _ _ HS1 HS2) as [Hret Hw].
  destruct (run_Schedule clock1 order1 fuel s request pods w) as [[? ?] ?].
  destruct (run_Schedule clock2 order2 fuel s request pods w) as [[? ?] ?].
  simpl in *. by f_equal.
Qed.

Lemma Schedule_deterministic_witness :
  (run_Schedule ticking in_map_order 2 S_apart r1 [podA] ∅).1
  = (run_Schedule (λ n, 2 * Z.of_nat n)%Z in_reverse_order 2 S_apart r1
       [podA] ∅).1.
Proof.
  apply (Schedule_deterministic in_map_order in_reverse_order S_apart r1
           [podA] in_map_order_perm in_reverse_order_perm
           S_apart_waves_commute).
Defined.

(** ** C9 *)



(** With no candidate pod both profiles are run, one round after the
    other, both fail, and the error is the handler's. *)
Example no_candidate_both_fail :
  let r := run_Schedule ticking in_map_order 3 S_failing r1 [] ∅ in
  omap run_name (calls r.2) = ["p1"; "p2"]
  ∧ r.1.1 = Some (None, Some "no eligible pod").
Proof. vm_compute. done. Qed.

(** The scenario of the spec with no candidate pod: the profile runs and
    selects none, and the error is the handler's. *)
Example no_candidate_scenario :
  let r := run_Schedule ticking in_map_order 2 S_first r1 [] ∅ in
  omap run_name (calls r.2) = ["p1"]
  ∧ r.1.1 = Some (None, Some "no eligible pod").
Proof. vm_compute. done. Qed.

(** ** C10 *)

(** C10.  Every [Run] in the trace is a run of a profile, and the map
    given to the next call of the handler has, under the name of the
    run, the result that the run returned, whether or not it returned an
    error too; when it returned a result with an error the entry is not
    nil. *)
Theorem run_result_stored_as_returned clock rangeOrder fuel s request pods w :
  let r := run_Schedule clock rangeOrder fuel s request pods w in
  ∀ pre name rq cs cpods result err before after mid reader post rs,
    invocations r.2
      = pre ++ (CallRun name rq cs cpods result err, before, after)
            :: mid ++ reader :: post →
    Forall (λ i, run_name (call_of i) ≠ Some name) mid →
    reads (call_of reader) = Some rs →
    (∃ profile, Run profile before rq cs cpods = (after, (result, err)))
    ∧ rs !! name = Some result
    ∧ (is_Some result → is_Some err → rs !! name ≠ Some None).
Proof.
  intros r pre name rq cs cpods result err before after mid reader post rs
    Heq Hmid Hreads.
  assert (Scheduled rangeOrder fuel s request pods w
            (invocations r.2) r.1.1 r.1.2) as HS
    by apply Schedule_Scheduled.
  assert (rs !! name = Some result) as Hrs.
  { apply Scheduled_reads_recorded in HS. rewrite Heq in HS.
    rewrite fmap_app, fmap_cons, fmap_app, fmap_cons in HS.
    change (?a ++ ?x :: ?b ++ ?y :: ?c)
      with (a ++ [x] ++ b ++ y :: c) in HS.
    rewrite !app_assoc in HS. apply accepts_at in HS.
    specialize (HS rs Hreads). subst rs.
    rewrite !foldl_app. rewrite foldl_record_lookup_ne.
    - simpl. apply lookup_insert_eq.
    - by apply Forall_fmap. }
  split; [|split; [done|]].
  - apply Scheduled_sound in HS. rewrite Heq in HS.
    apply Forall_app in HS as [_ HS]. apply Forall_cons in HS as [[HS _] _].
    exact HS.
  - intros [r0 ->] _. rewrite Hrs. discriminate.
Qed.

Lemma run_result_stored_as_returned_witness :
  let result := Some (selecting (Some podA)) in
  let err := Some "scorer failed" in
  (∃ profile, Run profile fresh_world r1 0 [podA]
              = (fresh_world, (result, err)))
  ∧ both_A !! "p1" = Some result
  ∧ (is_Some result → is_Some err → both_A !! "p1" ≠ Some None).
Proof.
  intros result err.
  pose (r := run_Schedule ticking in_map_order 2 S_half r1 [podA] ∅).
  apply (run_result_stored_as_returned ticking in_map_order 2 S_half r1
           [podA] ∅ (take 2 (invocations r.2)) "p1" r1 0 [podA] result err
           fresh_world fresh_world (take 1 (drop 3 (invocations r.2)))
           (CallPick 0 r1 (profiles S_half) both_A ∅, fresh_world, fresh_world)
           (drop 5 (invocations r.2)) both_A).
  - vm_compute. reflexivity.
  - vm_compute. repeat constructor. discriminate.
  - reflexivity.
Defined.

(** * Further properties *)

(** ** The trace, unfolded *)

Section Unfold.
Variable clock : nat → Z.
Variable rangeOrder : nat → Profiles → list (string * SchedulerProfile).

Lemma runProfile_unfold request cs pods rs name profile st :
  let r := Run profile (world st) request cs pods in
  runProfile request cs pods rs name profile st =
    (<[name := r.2.1]> rs, mkState r.1 (ticks st) (ranges st),
     run_events name request cs pods (world st) r).
Proof.
  unfold runProfile, run_events. run_binds.
  by destruct (Run profile (world st) request cs pods) as [w1 [res [e|]]].
Qed.

Lemma runProfiles_unfold request cs pods name profile entries rs st :
  let r := Run profile (world st) request cs pods in
  let rest := runProfiles request cs pods entries (<[name := r.2.1]> rs)
                (mkState r.1 (ticks st) (ranges st)) in
  runProfiles request cs pods ((name, profile) :: entries) rs st =
    (rest.1.1, rest.1.2,
     run_events name request cs pods (world st) r ++ rest.2).
Proof. simpl. rewrite bind_eq, runProfile_unfold. done. Qed.

Lemma rounds_unfold fuel s request pods cs rs st :
  let pk := Pick (profileHandler s) (world st) cs request (profiles s) rs in
  let wv := runProfiles request cs pods (rangeOrder (ranges st) pk.2) rs
              (mkState pk.1 (S (S (ticks st))) (S (ranges st))) in
  let rest := rounds clock rangeOrder fuel s request pods cs wv.1.1 wv.1.2 in
  rounds clock rangeOrder (S fuel) s request pods cs rs st =
    if decide (size pk.2 = 0) then
      (Some rs, mkState pk.1 (S (S (ticks st))) (ranges st),
       pick_events clock s request cs rs st pk)
    else
      (rest.1.1, rest.1.2, pick_events clock s request cs rs st pk ++ wv.2 ++ rest.2).
Proof.
  simpl. run_binds. case_decide; [done|]. run_binds. done.
Qed.

Lemma resultAttributes_state result err st st' :
  (resultAttributes result err st).1.2 = st
  ∧ (resultAttributes result err st).2 = (resultAttributes result err st').2.
Proof. unfold resultAttributes. by destruct (result ≫= TargetPod), err. Qed.

Lemma Schedule_unfold fuel s request pods w :
  let l := Schedule_loop clock rangeOrder fuel s request pods w in
  (run_Schedule clock rangeOrder fuel s request pods w).2 =
    opening_events request pods w ++ l.2
    ++ closing_events clock s request (NewCycleState_at w) l.1.1 l.1.2.
Proof.
  unfold run_Schedule, Schedule, Schedule_loop, closing_events. simpl.
  run_binds.
  destruct (rounds clock rangeOrder fuel s request pods (NewCycleState_at w) ∅
              (mkState (<[NewCycleState_at w:=∅]> w) 1 0))
    as [[[rs|] st1] tr1]; simpl; [|done].
  case_decide as Hsz; simpl; run_binds; [done|].
  set (p := ProcessResults (profileHandler s) (world st1)
              (NewCycleState_at w) request rs).
  set (st2 := mkState p.1 (S (S (ticks st1))) (ranges st1)).
  destruct (resultAttributes_state p.2.1 p.2.2 st2 st1) as [-> ->].
  done.
Qed.
End Unfold.

Section Traces.
Variable clock : nat → Z.
Variable rangeOrder : nat → Profiles → list (string * SchedulerProfile).

(** A projection that sees nothing in the events of a run sees nothing
    in a wave. *)
Lemma runProfiles_omap {X} (f : Event → option X) (g : Event → option X)
    request cs pods entries :
  (∀ name before r,
     omap f (run_events name request cs pods before r)
     = omap g (run_events name request cs pods before r)) →
  ∀ rs st,
    omap f (runProfiles request cs pods entries rs st).2
    = omap g (runProfiles request cs pods entries rs st).2.
Proof.
  intros Hrun. induction entries as [|[name profile] entries IH];
    intros rs st; [done|].
  rewrite runProfiles_unfold. cbv zeta. cbn [snd].
  by rewrite !omap_app, Hrun, IH.
Qed.

Lemma rounds_omap {X} (f g : Event → option X) s request pods cs :
  (∀ name before r,
     omap f (run_events name request cs pods before r)
     = omap g (run_events name request cs pods before r)) →
  (∀ rs st pk,
     omap f (pick_events clock s request cs rs st pk)
     = omap g (pick_events clock s request cs rs st pk)) →
  ∀ fuel rs st,
    omap f (rounds clock rangeOrder fuel s request pods cs rs st).2
    = omap g (rounds clock rangeOrder fuel s request pods cs rs st).2.
Proof.
  intros Hrun Hpick. induction fuel as [|fuel IH]; intros rs st; [done|].
  rewrite rounds_unfold. cbv zeta. case_decide; cbn [snd]; [done|].
  by rewrite !omap_app, Hpick, IH, (runProfiles_omap f g _ _ _ _ Hrun).
Qed.

Lemma Schedule_omap {X} (f g : Event → option X) fuel s request pods w :
  let cs := NewCycleState_at w in
  (∀ name before r,
     omap f (run_events name request cs pods before r)
     = omap g (run_events name request cs pods before r)) →
  (∀ rs st pk,
     omap f (pick_events clock s request cs rs st pk)
     = omap g (pick_events clock s request cs rs st pk)) →
  omap f (opening_events request pods w)
    = omap g (opening_events request pods w) →
  (∀ ended st,
     omap f (closing_events clock s request cs ended st)
     = omap g (closing_events clock s request cs ended st)) →
  omap f (run_Schedule clock rangeOrder fuel s request pods w).2
  = omap g (run_Schedule clock rangeOrder fuel s request pods w).2.
Proof.
  intros cs Hrun Hpick Hopen Hclose.
  rewrite Schedule_unfold. cbv zeta. rewrite !omap_app, Hopen, Hclose.
  unfold Schedule_loop.
  by rewrite (rounds_omap f g _ _ _ _ Hrun Hpick).
Qed.
End Traces.

Lemma resultAttributes_events result err st :
  Forall (λ e, ∃ kv, e = SpanSetAttributes kv)
    (resultAttributes result err st).2.
Proof.
  unfold resultAttributes.
  destruct (result ≫= TargetPod), err; repeat constructor; eauto.
Qed.

Lemma omap_none {X} (f : Event → option X) (P : Event → Prop) l :
  Forall P l → (∀ e, P e → f e = None) → omap f l = [].
Proof.
  induction 1 as [|e l He Hl IH]; intros Hf; simpl; [done|].
  rewrite (Hf e He). by apply IH.
Qed.

Lemma fmap_omap {X Y Z} (f : X → option Y) (g : Y → Z) (l : list X) :
  g <$> omap f l = omap (λ x, g <$> f x) l.
Proof.
  induction l as [|x l IH]; csimpl; [done|].
  destruct (f x); csimpl; by rewrite IH.
Qed.

(** The part of the closing events that a projection blind to span
    attributes sees. *)
Lemma closing_events_omap {X} (f : Event → option X) clock s request cs
    ended st :
  (∀ kv, f (SpanSetAttributes kv) = None) →
  omap f (closing_events clock s request cs ended st)
  = match ended with
    | None => []
    | Some rs =>
        if decide (size rs = 0) then
          omap f [RecordSchedulerE2ELatency (clock (ticks st) - clock 0%nat)%Z;
                  SpanEnd]
        else
          omap f (process_events clock s request cs rs st
                    (ProcessResults (profileHandler s) (world st) cs
                       request rs))
          ++ omap f [RecordSchedulerE2ELatency
                       (clock (S (S (ticks st))) - clock 0%nat)%Z; SpanEnd]
    end.
Proof.
  intros Hf. unfold closing_events. destruct ended as [rs|]; [|done].
  case_decide; [done|]. cbv zeta. rewrite !omap_app. f_equal.
  rewrite (omap_none f _ _ (resultAttributes_events _ _ _)); [done|].
  by intros e [kv ->].
Qed.

(** ** Metrics and log lines *)

(** X1.  [Schedule] records one plugin latency for every call of the
    handler it makes, in the order of the calls: under the extension point
    of the call ([Pick] or [ProcessResults]) and under the type and the
    name of the handler.  It records no plugin latency for anything else,
    a run of a profile included. *)
Theorem handler_latency_recorded_per_call
    clock rangeOrder fuel s request pods w :
  let r := run_Schedule clock rangeOrder fuel s request pods w in
  let tn := TypedName_of (profileHandler s) in
  omap plugin_metric r.2
  = (λ ep, (ep, Type_ tn, Name tn)) <$> omap handler_call r.2.
Proof.
  intros r tn. rewrite fmap_omap. apply Schedule_omap.
  - intros name before [w1 [res [e|]]]; done.
  - done.
  - done.
  - intros ended st. rewrite !closing_events_omap by done.
    destruct ended as [rs|]; [|done]. by case_decide.
Qed.

(** X2.  Every run of a profile is logged once it has returned, under the
    name of the profile: as failed, with the message of its error, when it
    returned an error, and as completed otherwise, whatever result came
    with it.  No other line of the log says that a run failed or
    completed. *)
Theorem every_run_is_logged clock rangeOrder fuel s request pods w :
  let r := run_Schedule clock rangeOrder fuel s request pods w in
  omap run_log r.2 = omap run_outcome r.2.
Proof.
  intros r. apply Schedule_omap.
  - intros name before [w1 [res [e|]]]; done.
  - done.
  - done.
  - intros ended st. rewrite !closing_events_omap by done.
    destruct ended as [rs|]; [|done]. by case_decide.
Qed.

Lemma Zsum_app l1 l2 : Zsum (l1 ++ l2) = (Zsum l1 + Zsum l2)%Z.
Proof. induction l1 as [|x l1 IH]; simpl; [done|]. rewrite IH. lia. Qed.

Section Latency.
Variable clock : nat → Z.
Variable rangeOrder : nat → Profiles → list (string * SchedulerProfile).
Hypothesis clock_mono : ∀ n, (clock n ≤ clock (S n))%Z.

Lemma clock_le (n m : nat) : (n ≤ m)%nat → (clock n ≤ clock m)%Z.
Proof.
  induction 1 as [|m Hle IH]; [done|].
  etransitivity; [exact IH | apply clock_mono].
Qed.

Lemma runProfiles_quiet request cs pods entries rs st :
  let r := runProfiles request cs pods entries rs st in
  ticks r.1.2 = ticks st
  ∧ omap plugin_latency r.2 = [] ∧ omap e2e_latency r.2 = [].
Proof.
  revert rs st. induction entries as [|[name profile] entries IH];
    intros rs st; [done|].
  rewrite runProfiles_unfold. cbv zeta. cbn [fst snd].
  destruct (IH (<[name:=(Run profile (world st) request cs pods).2.1]> rs)
              (mkState (Run profile (world st) request cs pods).1
                 (ticks st) (ranges st))) as (-> & Hp & He).
  rewrite !omap_app, Hp, He.
  by destruct (Run profile (world st) request cs pods) as [w1 [res [e|]]].
Qed.

Lemma rounds_latency s request pods cs fuel : ∀ rs st,
  let r := rounds clock rangeOrder fuel s request pods cs rs st in
  (ticks st ≤ ticks r.1.2)%nat
  ∧ Forall (λ d, 0 ≤ d)%Z (omap plugin_latency r.2)
  ∧ (Zsum (omap plugin_latency r.2)
     ≤ clock (ticks r.1.2) - clock (ticks st))%Z
  ∧ omap e2e_latency r.2 = [].
Proof.
  induction fuel as [|fuel IH]; intros rs st.
  - simpl. repeat split; [done | constructor | lia].
  - rewrite rounds_unfold. cbv zeta.
    pose proof (clock_mono (ticks st)) as H0.
    pose proof (clock_mono (S (ticks st))) as H1.
    case_decide as Hsz; cbn [fst snd].
    + simpl. repeat split; [lia | constructor; [lia | constructor] | lia].
    + set (pk := Pick (profileHandler s) (world st) cs request (profiles s) rs).
      set (st1 := mkState pk.1 (S (S (ticks st))) (S (ranges st))).
      destruct (runProfiles_quiet request cs pods
                  (rangeOrder (ranges st) pk.2) rs st1) as (Ht & Hp & He).
      set (wv := runProfiles request cs pods
                   (rangeOrder (ranges st) pk.2) rs st1) in *.
      destruct (IH wv.1.1 wv.1.2) as (IHt & IHf & IHs & IHe).
      rewrite Ht in IHt, IHs. simpl in IHt, IHs.
      rewrite !omap_app, Hp, He, IHe. simpl.
      repeat split; [lia | constructor; [lia | done] | lia].
Qed.
End Latency.

(** X3.  On a clock that never goes back, a call of [Schedule] whose loop
    ends records one latency for the whole call; the latencies it records
    for the handler are not negative, and together they do not exceed the
    latency of the whole call. *)
Theorem plugin_latencies_within_e2e_latency
    clock rangeOrder fuel s request pods w :
  (∀ n, (clock n ≤ clock (S n))%Z) →
  let l := Schedule_loop clock rangeOrder fuel s request pods w in
  let r := run_Schedule clock rangeOrder fuel s request pods w in
  is_Some l.1.1 →
  ∃ d, omap e2e_latency r.2 = [d]
       ∧ Forall (λ x, 0 ≤ x)%Z (omap plugin_latency r.2)
       ∧ (Zsum (omap plugin_latency r.2) ≤ d)%Z.
Proof.
  intros Hmono l r [rs Hl]. unfold r. rewrite Schedule_unfold. cbv zeta.
  fold l. rewrite Hl.
  destruct (rounds_latency clock rangeOrder Hmono s request pods
              (NewCycleState_at w) fuel ∅
              (mkState (<[NewCycleState_at w := ∅]> w) 1 0))
    as (Ht & Hf & Hs & He).
  fold (Schedule_loop clock rangeOrder fuel s request pods w) in Ht, Hf, Hs, He.
  fold l in Ht, Hf, Hs, He. simpl in Ht, Hs.
  pose proof (Hmono 0) as H0.
  pose proof (Hmono (ticks l.1.2)) as H1.
  pose proof (Hmono (S (ticks l.1.2))) as H2.
  rewrite !omap_app, He.
  rewrite (closing_events_omap e2e_latency) by done.
  rewrite (closing_events_omap plugin_latency) by done.
  case_decide as Hsz; simpl.
  - eexists. split; [done|]. rewrite app_nil_r. split; [done|]. lia.
  - eexists. split; [done|]. split.
    + apply Forall_app. split; [done|]. constructor; [lia | constructor].
    + rewrite Zsum_app. simpl. lia.
Qed.

Lemma plugin_latencies_within_e2e_latency_witness :
  let r := run_Schedule ticking in_map_order 3 S_fallback r1 [podA; podB] ∅ in
  ∃ d, omap e2e_latency r.2 = [d]
       ∧ Forall (λ x, 0 ≤ x)%Z (omap plugin_latency r.2)
       ∧ (Zsum (omap plugin_latency r.2) ≤ d)%Z.
Proof.
  assert (∀ n, (ticking n ≤ ticking (S n))%Z) as Hmono
    by (intros n; unfold ticking; lia).
  assert ((Schedule_loop ticking in_map_order 3 S_fallback r1 [podA; podB]
             ∅).1.1 = Some nil_then_A) as Hl by (vm_compute; reflexivity).
  apply (plugin_latencies_within_e2e_latency ticking in_map_order 3
           S_fallback r1 [podA; podB] ∅ Hmono).
  rewrite Hl. eauto.
Defined.

Lemma omap_const_None {X} (l : list Event) :
  omap (λ _ : Event, @None X) l = [].
Proof. by induction l. Qed.

(** The loop sets no span attribute. *)
Lemma Schedule_loop_attribute clock rangeOrder fuel s request pods w key :
  omap (attribute key) (Schedule_loop clock rangeOrder fuel s request pods w).2
  = [].
Proof.
  unfold Schedule_loop.
  rewrite (rounds_omap clock rangeOrder (attribute key) (λ _, None)
             s request pods (NewCycleState_at w)).
  - apply omap_const_None.
  - intros name before [w1 [res [e|]]]; done.
  - done.
Qed.

(** ** The span *)

(** X4.  The span of a call carries the number of candidate pods and the id
    of the request; each is set once, whatever the plugins do. *)
Theorem span_carries_pod_count_and_request_id
    clock rangeOrder fuel s request pods w :
  let r := run_Schedule clock rangeOrder fuel s request pods w in
  omap (attribute "gateway.scheduler.candidate_pods") r.2
  = [AttrInt (Z.of_nat (length pods))]
  ∧ omap (attribute "gateway.request.id") r.2
    = [AttrString (RequestId request)].
Proof.
  intros r. unfold r. rewrite Schedule_unfold. cbv zeta.
  rewrite !omap_app, !Schedule_loop_attribute.
  set (l := Schedule_loop clock rangeOrder fuel s request pods w).
  unfold closing_events.
  destruct l.1.1 as [rs|]; [|done].
  case_decide; [done|]. cbv zeta. rewrite !omap_app.
  set (p := ProcessResults _ _ _ _ _). unfold resultAttributes.
  by destruct (p.2.1 ≫= TargetPod), p.2.2.
Qed.

(** X5.  The outcome on the span of a call whose loop has ended.  When no
    profile was run, no outcome is set, although the call returns an
    error.  Otherwise the outcome is "scheduled", with the name and the
    namespace of the target pod, when [ProcessResults] returns a result
    with a target pod, even if it returns an error too; it is "failed"
    when there is no such pod and [ProcessResults] returns an error; and
    nothing is set when [ProcessResults] returns neither. *)
Theorem span_outcome_of_Schedule clock rangeOrder fuel s request pods w rs :
  let l := Schedule_loop clock rangeOrder fuel s request pods w in
  let r := run_Schedule clock rangeOrder fuel s request pods w in
  let p := ProcessResults (profileHandler s) (world l.1.2)
             (NewCycleState_at w) request rs in
  l.1.1 = Some rs →
  omap (attribute "gateway.scheduler.result") r.2
  = (if decide (size rs = 0) then []
     else match p.2.1 ≫= TargetPod, p.2.2 with
          | Some _, _ => [AttrString "scheduled"]
          | None, Some _ => [AttrString "failed"]
          | None, None => []
          end)
  ∧ omap (attribute "gateway.target_pod.name") r.2
    = (if decide (size rs = 0) then []
       else match p.2.1 ≫= TargetPod with
            | Some pod => [AttrString (GetName pod)]
            | None => []
            end)
  ∧ omap (attribute "gateway.target_pod.namespace") r.2
    = (if decide (size rs = 0) then []
       else match p.2.1 ≫= TargetPod with
            | Some pod => [AttrString (GetNamespace pod)]
            | None => []
            end).
Proof.
  intros l r p Hl. unfold r. rewrite Schedule_unfold. cbv zeta.
  rewrite !omap_app, !Schedule_loop_attribute. fold l. rewrite Hl.
  unfold closing_events. case_decide; [done|]. cbv zeta. fold p.
  rewrite !omap_app. unfold resultAttributes.
  by destruct (p.2.1 ≫= TargetPod), p.2.2.
Qed.

Lemma span_outcome_of_Schedule_witness :
  let r := run_Schedule ticking in_map_order 2 S_loud r1 [podA] ∅ in
  let l := Schedule_loop ticking in_map_order 2 S_loud r1 [podA] ∅ in
  let p := ProcessResults (profileHandler S_loud) (world l.1.2)
             (NewCycleState_at ∅) r1 both_A in
  omap (attribute "gateway.scheduler.result") r.2
  = (if decide (size both_A = 0) then []
     else match p.2.1 ≫= TargetPod, p.2.2 with
          | Some _, _ => [AttrString "scheduled"]
          | None, Some _ => [AttrString "failed"]
          | None, None => []
          end)
  ∧ omap (attribute "gateway.target_pod.name") r.2
    = (if decide (size both_A = 0) then []
       else match p.2.1 ≫= TargetPod with
            | Some pod => [AttrString (GetName pod)]
            | None => []
            end)
  ∧ omap (attribute "gateway.target_pod.namespace") r.2
    = (if decide (size both_A = 0) then []
       else match p.2.1 ≫= TargetPod with
            | Some pod => [AttrString (GetNamespace pod)]
            | None => []
            end).
Proof.
  assert ((Schedule_loop ticking in_map_order 2 S_loud r1 [podA] ∅).1.1
          = Some both_A) as Hl by (vm_compute; reflexivity).
  exact (span_outcome_of_Schedule ticking in_map_order 2 S_loud r1 [podA] ∅
           both_A Hl).
Defined.

Lemma rounds_no_span clock rangeOrder s request pods cs fuel : ∀ rs st,
  Forall (λ e, is_span_or_e2e e = false)
    (rounds clock rangeOrder fuel s request pods cs rs st).2.
Proof.
  assert (∀ entries rs st,
            Forall (λ e, is_span_or_e2e e = false)
              (runProfiles request cs pods entries rs st).2) as Hwave.
  { induction entries as [|[name profile] entries IH]; intros rs st;
      [constructor|].
    rewrite runProfiles_unfold. cbv zeta. cbn [snd].
    apply Forall_app. split; [|apply IH].
    destruct (Run profile (world st) request cs pods) as [w1 [res [e|]]];
      by repeat constructor. }
  induction fuel as [|fuel IH]; intros rs st; [constructor|].
  rewrite rounds_unfold. cbv zeta. case_decide; cbn [snd].
  - by repeat constructor.
  - apply Forall_app. split; [by repeat constructor|].
    apply Forall_app. split; [apply Hwave | apply IH].
Qed.

(** X6.  A call of [Schedule] whose loop ends starts its span first, and
    ends it last, right after recording the latency of the whole call; in
    between it neither starts nor ends a span, and records no other
    latency of a whole call.  This holds on both ways out of the
    function. *)
Theorem span_ended_after_latency_recorded
    clock rangeOrder fuel s request pods w :
  let l := Schedule_loop clock rangeOrder fuel s request pods w in
  let r := run_Schedule clock rangeOrder fuel s request pods w in
  is_Some l.1.1 →
  ∃ body d,
    r.2 = SpanStart "gateway.scheduler.schedule"
            :: body ++ [RecordSchedulerE2ELatency d; SpanEnd]
    ∧ Forall (λ e, is_span_or_e2e e = false) body.
Proof.
  intros l r [rs Hl]. unfold r. rewrite Schedule_unfold. cbv zeta.
  fold l. rewrite Hl. unfold closing_events, opening_events.
  pose proof (rounds_no_span clock rangeOrder s request pods
                (NewCycleState_at w) fuel ∅
                (mkState (<[NewCycleState_at w := ∅]> w) 1 0)) as Hq.
  fold (Schedule_loop clock rangeOrder fuel s request pods w) in Hq.
  fold l in Hq.
  case_decide.
  - eexists (_ :: _ :: l.2), _. split; [done|]. by repeat constructor.
  - cbv zeta.
    eexists (_ :: _ :: l.2 ++ process_events _ _ _ _ _ _ _
               ++ (resultAttributes _ _ _).2), _.
    split.
    + simpl. by rewrite <- !app_assoc.
    + repeat constructor. apply Forall_app. split; [done|].
      apply Forall_app. split; [by repeat constructor|].
      eapply Forall_impl; [apply resultAttributes_events|].
      by intros e [kv ->].
Qed.

Lemma span_ended_after_latency_recorded_witness :
  let r := run_Schedule ticking in_map_order 1 S_idle r1 [podA; podB] ∅ in
  ∃ body d,
    r.2 = SpanStart "gateway.scheduler.schedule"
            :: body ++ [RecordSchedulerE2ELatency d; SpanEnd]
    ∧ Forall (λ e, is_span_or_e2e e = false) body.
Proof.
  assert ((Schedule_loop ticking in_map_order 1 S_idle r1 [podA; podB] ∅).1.1
          = Some ∅) as Hl by (vm_compute; reflexivity).
  apply (span_ended_after_latency_recorded ticking in_map_order 1 S_idle r1
           [podA; podB] ∅).
  rewrite Hl. eauto.
Defined.

(** ** The results map and the way out *)

#[local] Set Warnings "-clear-no-such-hyp".

Lemma Wave_dom request pods cs entries rs w invs rs' w' :
  Wave request pods cs entries rs w invs rs' w' →
  dom rs' = dom rs ∪ list_to_set entries.*1.
Proof.
  induction 1 as [|name profile entries rs w w1 result err invs rs' w'
                    HR HW IH]; simpl.
  - set_solver.
  - rewrite IH, dom_insert_L. set_solver.
Qed.

Lemma Loop_dom rangeOrder s request pods cs fuel n rs w invs ended w' :
  (∀ n m, rangeOrder n m ≡ₚ map_to_list m) →
  Loop rangeOrder s request pods cs fuel n rs w invs ended w' →
  (∀ pre i post rs',
     invs = pre ++ i :: post → reads (call_of i) = Some rs' →
     dom rs' = dom rs ∪ ⋃ (dom <$> omap picked_of (call_of <$> pre)))
  ∧ (∀ rs', ended = Some rs' →
       dom rs' = dom rs ∪ ⋃ (dom <$> omap picked_of (call_of <$> invs))).
Proof.
  intros Hperm.
  induction 1 as [| fuel n rs w w1 picked HP Hsz
                  |fuel n rs w w1 picked wv rs1 w2 invs ended w'
                      HP Hsz HW HL [IH1 IH2]].
  - split; [|done]. intros pre i post rs' Heq. by destruct pre.
  - apply map_size_empty_iff in Hsz as ->. split.
    + intros pre i post rs' Heq Hreads.
      destruct pre as [|? [|? ?]]; simplify_eq/=. set_solver.
    + intros rs' [= <-]. simpl. rewrite dom_empty_L. set_solver.
  - assert (dom rs1 = dom rs ∪ dom picked) as Hrs1.
    { rewrite (Wave_dom _ _ _ _ _ _ _ _ _ HW), (Hperm n picked).
      f_equal. apply set_eq. intros name.
      rewrite elem_of_list_to_set, elem_of_dom, list_elem_of_fmap.
      split.
      - intros ([k p] & -> & Hin). apply elem_of_map_to_list in Hin. eauto.
      - intros [p Hp]. exists (name, p). split; [done|].
        by apply elem_of_map_to_list. }
    assert (omap picked_of (call_of <$> wv) = []) as Hnone
      by (by eapply Wave_no_pick).
    split.
    + intros pre i post rs' Heq Hreads.
      destruct pre as [|i0 pre]; simplify_eq/=; [set_solver|].
      match goal with H : _ ++ _ = _ ++ _ |- _ => rename H into Heq end.
      symmetry in Heq.
      apply (app_cons_past (λ i, is_Run (call_of i) = true)) in Heq
        as (pre' & -> & ->); [|by eapply Wave_runs|by destruct i as [[[] ?] ?]].
      rewrite (IH1 _ _ _ _ eq_refl Hreads), Hrs1.
      rewrite fmap_app, omap_app, Hnone. simpl. set_solver.
    + intros rs' ->. rewrite (IH2 _ eq_refl), Hrs1.
      rewrite fmap_cons, fmap_app. simpl. rewrite omap_app, Hnone. simpl.
      set_solver.
Qed.

(** X7.  When [range] yields every entry of the map it is given once, the
    results map that a call of the handler is given has an entry for every
    profile that the calls of [Pick] before it have picked, and for no
    other name. *)
Theorem results_hold_the_picked_names clock rangeOrder fuel s request pods w :
  (∀ n m, rangeOrder n m ≡ₚ map_to_list m) →
  let r := run_Schedule clock rangeOrder fuel s request pods w in
  ∀ pre i post rs,
    invocations r.2 = pre ++ i :: post →
    reads (call_of i) = Some rs →
    dom rs = ⋃ (dom <$> omap picked_of (call_of <$> pre)).
Proof.
  intros Hperm r pre i post rs Heq Hreads.
  assert (Scheduled rangeOrder fuel s request pods w
            (invocations r.2) r.1.1 r.1.2) as HS
    by apply Schedule_Scheduled.
  apply Scheduled_inv in HS as (inner & ended & w1 & tail & Hinv & HL & Hend).
  rewrite Hinv in Heq. clear Hinv.
  destruct (Loop_dom _ _ _ _ _ _ _ _ _ _ _ _ Hperm HL) as [H1 H2].
  destruct pre as [|i0 pre]; simplify_eq/=.
  match goal with H : _ ++ _ = _ ++ _ |- _ => rename H into Heq end.
  apply app_eq_inv in Heq as [(k & -> & Hk)|(k & -> & Hk)].
  - destruct k as [|i1 k]; simplify_eq/=.
    + rewrite app_nil_r in *.
      destruct ended as [rs'|]; [|by destruct Hend as (_ & ? & _)].
      destruct Hend as [(_ & _ & ? & _)|(_ & result & err & _ & _ & Ht)];
        [done|].
      simplify_eq/=. rewrite (H2 _ eq_refl), dom_empty_L.
      apply leibniz_equiv. by rewrite (left_id ∅ (∪)).
    + rewrite (H1 _ _ _ _ eq_refl Hreads), dom_empty_L.
      apply leibniz_equiv. by rewrite (left_id ∅ (∪)).
  - destruct ended as [rs'|]; [|destruct Hend as (_ & -> & _); by destruct k].
    destruct Hend as [(_ & _ & -> & _)|(_ & result & err & _ & _ & ->)];
      [by destruct k|].
    destruct k as [|? [|? ?]]; simplify_eq/=.
    rewrite app_nil_r, (H2 _ eq_refl), dom_empty_L.
    apply leibniz_equiv. by rewrite (left_id ∅ (∪)).
Qed.

Lemma results_hold_the_picked_names_witness :
  let r := run_Schedule ticking in_map_order 3 S_fallback r1 [podA] ∅ in
  dom nil_then_A
  = ⋃ (dom <$> omap picked_of (call_of <$> take 6 (invocations r.2))).
Proof.
  intros r.
  assert (invocations r.2
          = take 6 (invocations r.2)
            ++ (CallProcessResults 0 r1 nil_then_A
                  (Some (mkSchedulingResult (Some podA) nil_then_A)) None,
                fresh_world, fresh_world) :: []) as Hinv
    by (vm_compute; reflexivity).
  exact (results_hold_the_picked_names ticking in_map_order 3 S_fallback r1
           [podA] ∅ in_map_order_perm _ _ _ nil_then_A Hinv eq_refl).
Defined.



(** ** The arguments of the plugins *)

(** X9.  A scheduler made by [NewSchedulerWithConfig] consults the handler
    of the configuration, and hands every [Pick] the profiles of the
    configuration; every plugin is handed the request, and every profile
    the candidate pods, that [Schedule] was called with. *)
Theorem Schedule_hands_its_arguments_on
    clock rangeOrder fuel config request pods w :
  let r := run_Schedule clock rangeOrder fuel
             (NewSchedulerWithConfig config) request pods w in
  Forall (λ i, match i with
               | (CallNewCycleState _, _, _) => True
               | (CallPick cs rq available rs picked, before, after) =>
                   rq = request
                   ∧ available = config_profiles config
                   ∧ Pick (config_profileHandler config) before cs rq
                       available rs = (after, picked)
               | (CallRun _ rq _ cpods _ _, _, _) =>
                   rq = request ∧ cpods = pods
               | (CallProcessResults cs rq rs result err, before, after) =>
                   rq = request
                   ∧ ProcessResults (config_profileHandler config) before
                       cs rq rs = (after, (result, err))
               end) (invocations r.2).
Proof.
  intros r.
  assert (Scheduled rangeOrder fuel (NewSchedulerWithConfig config) request
            pods w (invocations r.2) r.1.1 r.1.2) as HS
    by apply Schedule_Scheduled.
  apply Scheduled_sound in HS.
  eapply Forall_impl; [exact HS|].
  intros [[c b] a] [Hg Ha]. destruct c; simpl in *; tauto.
Qed.

(** ** The validation template *)

(** The path [$.Values.inferencePool.modelServers] has a value exactly when
    [$.Values] and [$.Values.inferencePool] are dictionaries; the value is
    nil when [inferencePool] has no key "modelServers". *)
Lemma modelServers_Some (root ms : validations.Value) :
  validations.modelServers root = Some ms
  ↔ ∃ top values inferencePool,
      root = validations.VDict top
      ∧ top !! "Values" = Some (validations.VDict values)
      ∧ values !! "inferencePool" = Some (validations.VDict inferencePool)
      ∧ ms = default validations.VNil (inferencePool !! "modelServers").
Proof.
  unfold validations.modelServers. split.
  - destruct root as [| | | | |top]; try done. simpl.
    destruct (top !! "Values") as [[| | | | |values]|] eqn:Ht;
      simpl; try done.
    destruct (values !! "inferencePool") as [[| | | | |ip]|] eqn:Hv;
      simpl; try done.
    intros [= <-]. eauto 10.
  - intros (top & values & ip & -> & Ht & Hv & ->). simpl.
    rewrite Ht. simpl. by rewrite Hv.
Qed.

(** X10.  The validation template reads [$.Values.inferencePool.modelServers];
    the path has a value exactly when [$.Values] and
    [$.Values.inferencePool] are dictionaries, and the value is nil when
    [inferencePool] has no key "modelServers".  The template renders, and
    writes nothing, exactly when that value is a dictionary with a key
    "matchLabels", whatever is under the key.  It fails with its message
    exactly when the path has a value that is empty (absent included) or
    a dictionary without that key.  In every other case the engine stops
    with an error of its own: when the path has no value, and when its
    value is neither empty nor a dictionary. *)
Theorem validation_asks_for_the_key_only (root : validations.Value) :
  (∀ ms, validations.modelServers root = Some ms
         ↔ ∃ top values inferencePool,
             root = validations.VDict top
             ∧ top !! "Values" = Some (validations.VDict values)
             ∧ values !! "inferencePool"
               = Some (validations.VDict inferencePool)
             ∧ ms = default validations.VNil
                      (inferencePool !! "modelServers"))
  ∧ (validations.inferencepool_common root = validations.Output ""
     ↔ ∃ d, validations.modelServers root = Some (validations.VDict d)
            ∧ is_Some (d !! "matchLabels"))
  ∧ (validations.inferencepool_common root
     = validations.Failed
         ".Values.inferencePool.modelServers.matchLabels is required"
     ↔ ∃ ms, validations.modelServers root = Some ms
             ∧ (validations.empty ms = true
                ∨ ∃ d, ms = validations.VDict d
                       ∧ d !! "matchLabels" = None))
  ∧ (validations.inferencepool_common root = validations.ExecError
     ↔ validations.modelServers root = None
       ∨ ∃ ms, validations.modelServers root = Some ms
               ∧ validations.empty ms = false
               ∧ ∀ d, ms ≠ validations.VDict d).
Proof.
  split; [intros ms; apply modelServers_Some|].
  unfold validations.inferencepool_common.
  destruct (validations.modelServers root) as [ms|]; simpl.
  - destruct (validations.empty ms) eqn:He.
    + split; [|split]; split; try done.
      * intros (d & [= ->] & [x Hx]). simpl in He.
        apply bool_decide_eq_true, map_size_empty_iff in He. by subst.
      * intros _. eauto.
      * intros [|(ms' & [= <-] & He' & _)]; [done|]. congruence.
    + destruct ms as [|b|n|s|l|d]; simpl;
        try (split; [|split]; split;
             [done
             |by intros (? & ? & _)
             |done
             |intros (? & [= <-] & [?|(? & ? & _)]); [congruence|done]
             |intros _; right; eexists; split; [done|]; split; [done|];
              by intros ?
             |done]).
      destruct (d !! "matchLabels") as [x|] eqn:Hd.
      * rewrite bool_decide_eq_true_2 by eauto. simpl.
        split; [|split]; split; try done.
        -- intros _. exists d. rewrite Hd. eauto.
        -- intros (ms' & [= <-] & [?|(d' & [= <-] & Hd')]); [congruence|].
           by rewrite Hd in Hd'.
        -- intros [|(ms' & [= <-] & _ & Hnd)]; [done|]. by destruct (Hnd d).
      * rewrite bool_decide_eq_false_2 by (by intros [? ?]). simpl.
        split; [|split]; split; try done.
        -- intros (d' & [= <-] & [x Hx]). by rewrite Hd in Hx.
        -- intros _. eauto 10.
        -- intros [|(ms' & [= <-] & _ & Hnd)]; [done|]. by destruct (Hnd d).
  - split; [|split]; split; try done.
    + by intros (? & ? & _).
    + by intros (? & ? & _).
    + intros _. by left.
Qed.
